(** * windowjs: the module loader of [src/js.cc]

    A shallow embedding of class [Js] (src/js.cc): the module registry
    ([modules_], [module_path_by_id_]), the depth-first graph loader
    ([LoadModuleTree]), the activator ([LoadModuleByPath]), the dynamic import
    scheduler (both [ImportDynamic] overloads), the inline script runner
    ([ExecuteScript]) and the diagnostics helpers ([AppendModulePath],
    [ReportException]).

    The members of [Js] become the fields of a record that is passed
    explicitly.  The collaborators that are not part of js.cc -- the V8
    engine, [std::filesystem], file.h, zip.h, the embedded resources -- are
    gathered in a record [World] over which every definition is
    parameterised.  An [ASSERT] that fails is the result [AssertFailed]; the
    recursion of [LoadModuleTree] is bounded by a fuel argument and running
    out of it is the result [OutOfFuel]. *)

From Stdlib Require Import ZArith Lia.
From stdpp Require Import base option list strings pretty gmap fin_maps fin_sets
  relations.

Local Open Scope string_scope.

(** ** Strings *)

(** The line feed written ["\n"] in the source. *)
Definition nl : string := String (Ascii.ascii_of_nat 10) EmptyString.

(** [std::string_view::substr(0, n)]: the first [n] characters, fewer when
    the string is shorter. *)
Definition substr0 (n : nat) (s : string) : string := String.substring 0 n s.

(** Modelled from the spec: [StartsWith] is declared in util.h, which is not
    part of the sources at hand; the spec speaks of specifiers "beginning
    with" a prefix.  [StartsWith name p] holds when [p] is a prefix of
    [name]. *)
Definition StartsWith (name p : string) : bool := String.prefix p name.

(** js.cc:41 *)
Definition IsValidImport (name : string) : bool :=
  StartsWith name "./" || StartsWith name "../".

(** js.cc:45 *)
Definition MakeInvalidImportError (name : string) : string :=
  "Invalid module name: '" +:+ name +:+
  "'. Valid imports must begin with ./ or ../".

(** ** Engine values *)

(** The shapes of [v8::Value] that [Js::ToString] tells apart.  [VOther]
    stands for every other value: [utf8] is what [v8::String::Utf8Value]
    produces for it ([None] when the conversion yields a null pointer) and
    [type_of] is the string [TypeOf] returns. *)
Inductive Value : Type :=
  | VString (s : string)
  | VModuleNamespace (script_id : Z)
  | VSymbolObject
  | VSymbol (description : Value)
  | VOther (utf8 : option string) (type_of : string).

(** js.cc:130 *)
Fixpoint ToString (value : Value) : string :=
  match value with
  | VString s => s
  | VModuleNamespace _ => "[Module]"
  | VSymbolObject => "[SymbolObject]"
  | VSymbol description => ToString description
  | VOther None type_of => type_of
  | VOther (Some v) _ => v
  end.

(** js.cc:154; an empty handle is [None]. *)
Definition ToStringOr (value : option Value) (or_string : string) : string :=
  match value with
  | None => or_string
  | Some v => ToString v
  end.

(** The object [v8::Isolate::ThrowError(message)] throws: an [Error] whose
    message is the given string. *)
Definition v8_Error (message : string) : Value :=
  VOther (Some ("Error: " +:+ message)) "object".

Record StackFrame : Type := mkStackFrame {
  GetScriptName : option Value;
  GetFunctionName : option Value;
  GetLineNumber : Z
}.

(** [v8::Message]: the text and the captured stack trace ([None] when
    [GetStackTrace] returns an empty handle). *)
Record Message : Type := mkMessage {
  Get : Value;
  GetStackTrace : option (list StackFrame)
}.

(** A compiled module handle: what js.cc reads from a [v8::Module]. *)
Record Module : Type := mkModule {
  ScriptId : Z;
  ResourceName : string;
  GetModuleRequests : list string
}.

Inductive PromiseState : Type :=
  | kPending
  | kFulfilled (result : Value)
  | kRejected (result : Value).

(** What running script code asks of the host while it executes. *)
Inductive HostCall : Type :=
  | HostImportDynamic (referrer specifier : string)
  | HostSuppressNextScriptResult.

(** ** Results *)

Inductive Res (A : Type) : Type :=
  | Ok (a : A)
  | AssertFailed
  | OutOfFuel.
Arguments Ok {A} a.
Arguments AssertFailed {A}.
Arguments OutOfFuel {A}.

#[global] Instance Res_ret : MRet Res := @Ok.
#[global] Instance Res_bind : MBind Res := λ A B f r,
  match r with
  | Ok a => f a
  | AssertFailed => AssertFailed
  | OutOfFuel => OutOfFuel
  end.

(** [ASSERT(cond)] *)
Definition ASSERT (cond : bool) : Res unit :=
  if cond then Ok tt else AssertFailed.

(** ** The collaborators *)

Inductive RunCompletion : Type :=
  | RunThrows (exception : Value)
  | RunValue (result : Value).

Inductive EvalCompletion : Type :=
  | EvalThrows (exception : Value)
  | EvalPromise (state : PromiseState).

(** What [v8::Module::InstantiateModule] can do: succeed, throw, or never
    return because the resolve callback failed an assertion. *)
Inductive InstantiateResult (H : Type) : Type :=
  | Instantiated (h : H)
  | InstantiateThrows (exception : Value) (h : H)
  | InstantiateAborted.
Arguments Instantiated {H} h.
Arguments InstantiateThrows {H} exception h.
Arguments InstantiateAborted {H}.

Record World : Type := mkWorld {
  (** the JavaScript heap, opaque *)
  Heap : Type;
  (** std::filesystem::path, a path being the string [path.string()] *)
  path_div : string → string → string;
  lexically_normal : string → string;
  remove_filename : string → string;
  fs_relative : string → string → string;
  (** file.h: the content, or the error text *)
  ReadFile : string → string + string;
  (** zip.h and the embedded resources *)
  GzipUncompress : string → string;
  kEmbeddedConsoleSource : string;
  kEmbeddedWelcomeSource : string;
  (** v8::Script::Compile: the exception when compilation fails *)
  v8_Script_Compile : string → option Value;
  (** v8::Script::Run: the host calls made, the completion, the heap *)
  v8_Script_Run : Heap → string → list HostCall * RunCompletion * Heap;
  (** v8::ScriptCompiler::CompileModule on a source and a resource name: the
      import specifiers in source order, or the exception *)
  v8_CompileModule : string → string → list string + Value;
  (** v8::Module::InstantiateModule with its resolve callback *)
  v8_InstantiateModule :
    Heap → (Module → string → Res Module) → Module → InstantiateResult Heap;
  (** v8::Module::Evaluate *)
  v8_Evaluate : Heap → Module → list HostCall * EvalCompletion * Heap;
  (** v8::TryCatch::Message for a caught exception *)
  v8_Message : Value → Message
}.

(** ** The state of a [Js] object *)

(** The calls received by the [Delegate]. *)
Inductive DelegateCall : Type :=
  | OnJavascriptException (message : string) (stack_trace : list string)
  | OnMainModuleLoaded.

(** The closures handed to [TaskQueue::Post]; js.cc posts one kind only, the
    one that calls [ImportDynamic(path_str)]. *)
Inductive Task : Type :=
  | TaskImportDynamic (path_str : string).

(** The static functions js.cc attaches to promises. *)
Inductive Callback : Type :=
  | CbOnMainModuleResolve
  | CbOnMainModuleFailure
  | CbOnModuleFailure.

(** A continuation attached by [Promise::Then] or [Promise::Catch]. *)
Record Reaction : Type := mkReaction {
  reaction_promise : nat;
  on_fulfilled : option Callback;
  on_rejected : option Callback
}.

Section Model.

Context (W : World).

(** What js.cc relies on in a [v8::Isolate]: script identifiers are handed
    out in increasing order, promises are numbered, and at most one exception
    is pending for the innermost [v8::TryCatch].  [compiled] lists the
    modules compiled so far, oldest first. *)
Record Isolate : Type := mkIsolate {
  heap : Heap W;
  next_script_id : Z;
  compiled : list Module;
  next_promise : nat;
  promises : gmap nat PromiseState;
  reactions : list Reaction;
  exception : option Value
}.

(** The members of [Js], together with the traces of its collaborators: the
    calls made on [delegate_], the closures posted on [task_queue_] (oldest
    first) and the paths given to [ReadFile]. *)
Record Js : Type := mkJs {
  delegate_ : list DelegateCall;
  base_path_ : string;
  task_queue_ : list Task;
  suppress_next_script_result_ : bool;
  isolate_ : Isolate;
  modules_ : gmap string Module;
  module_path_by_id_ : gmap Z string;
  dynamic_imports_ : gmap string nat;
  files_read : list string
}.

Definition set_exception (e : option Value) (i : Isolate) : Isolate :=
  mkIsolate (heap i) (next_script_id i) (compiled i) (next_promise i)
    (promises i) (reactions i) e.

Definition set_heap (h : Heap W) (i : Isolate) : Isolate :=
  mkIsolate h (next_script_id i) (compiled i) (next_promise i)
    (promises i) (reactions i) (exception i).

Definition add_compiled (m : Module) (i : Isolate) : Isolate :=
  mkIsolate (heap i) (next_script_id i + 1) (compiled i ++ [m])%list
    (next_promise i) (promises i) (reactions i) (exception i).

Definition set_promises (n : nat) (ps : gmap nat PromiseState) (i : Isolate)
  : Isolate :=
  mkIsolate (heap i) (next_script_id i) (compiled i) n ps (reactions i)
    (exception i).

Definition add_reaction (r : Reaction) (i : Isolate) : Isolate :=
  mkIsolate (heap i) (next_script_id i) (compiled i) (next_promise i)
    (promises i) (reactions i ++ [r])%list (exception i).

Definition with_isolate (f : Isolate → Isolate) (js : Js) : Js :=
  mkJs (delegate_ js) (base_path_ js) (task_queue_ js)
    (suppress_next_script_result_ js) (f (isolate_ js)) (modules_ js)
    (module_path_by_id_ js) (dynamic_imports_ js) (files_read js).

Definition call_delegate (c : DelegateCall) (js : Js) : Js :=
  mkJs ((delegate_ js ++ [c])%list) (base_path_ js) (task_queue_ js)
    (suppress_next_script_result_ js) (isolate_ js) (modules_ js)
    (module_path_by_id_ js) (dynamic_imports_ js) (files_read js).

Definition set_task_queue (q : list Task) (js : Js) : Js :=
  mkJs (delegate_ js) (base_path_ js) q
    (suppress_next_script_result_ js) (isolate_ js) (modules_ js)
    (module_path_by_id_ js) (dynamic_imports_ js) (files_read js).

Definition set_suppress (b : bool) (js : Js) : Js :=
  mkJs (delegate_ js) (base_path_ js) (task_queue_ js) b (isolate_ js)
    (modules_ js) (module_path_by_id_ js) (dynamic_imports_ js)
    (files_read js).

Definition set_registry (ms : gmap string Module) (ids : gmap Z string)
    (js : Js) : Js :=
  mkJs (delegate_ js) (base_path_ js) (task_queue_ js)
    (suppress_next_script_result_ js) (isolate_ js) ms ids
    (dynamic_imports_ js) (files_read js).

Definition set_dynamic_imports (d : gmap string nat) (js : Js) : Js :=
  mkJs (delegate_ js) (base_path_ js) (task_queue_ js)
    (suppress_next_script_result_ js) (isolate_ js) (modules_ js)
    (module_path_by_id_ js) d (files_read js).

Definition log_read (path : string) (js : Js) : Js :=
  mkJs (delegate_ js) (base_path_ js) (task_queue_ js)
    (suppress_next_script_result_ js) (isolate_ js) (modules_ js)
    (module_path_by_id_ js) (dynamic_imports_ js) (files_read js ++ [path])%list.

(** The state the constructor [Js::Js] leaves (js.cc:75). *)
Definition Js_new (base_path : string) (h : Heap W) : Js :=
  mkJs [] base_path [] false (mkIsolate h 0 [] 0 ∅ [] None) ∅ ∅ ∅ [].

(** *** [v8::TryCatch] *)

(** A handler that has just been constructed has caught nothing. *)
Definition TryCatch_enter (js : Js) : Js :=
  with_isolate (set_exception None) js.

Definition HasCaught (js : Js) : bool :=
  bool_decide (is_Some (exception (isolate_ js))).

(** [TryCatch::Reset], and the end of a handler's scope. *)
Definition TryCatch_Reset (js : Js) : Js :=
  with_isolate (set_exception None) js.

(** [isolate_->ThrowException(value)] *)
Definition ThrowException (value : Value) (js : Js) : Js :=
  with_isolate (set_exception (Some value)) js.

(** js.cc:163 *)
Definition ThrowError (error : string) (js : Js) : Js :=
  ThrowException (v8_Error error) js.

(** *** Diagnostics *)

(** The loop of js.cc:35-38, entered with [i = n - 1]: it prints
    [paths[n-1]], ..., [paths[0]]. *)
Fixpoint AppendModulePath_from (base_path : string) (paths : list string)
    (n : nat) : string :=
  match n with
  | O => EmptyString
  | S i =>
      "       from " +:+
      fs_relative W (nth i paths EmptyString) base_path +:+ nl +:+
      AppendModulePath_from base_path paths i
  end.

(** js.cc:26; the result is what is appended to the stream. *)
Definition AppendModulePath (base_path : string) (paths : list string)
  : string :=
  match paths with
  | [] => EmptyString
  | _ =>
      let i := (length paths - 1)%nat in
      "    loading " +:+
      fs_relative W (nth i paths EmptyString) base_path +:+ nl +:+
      AppendModulePath_from base_path paths i
  end.

(** The line js.cc:184-185 builds for one stack frame. *)
Definition format_frame (frame : StackFrame) : string :=
  let file := ToStringOr (GetScriptName frame) "<script>" in
  let function := ToStringOr (GetFunctionName frame) "<top>" in
  function +:+ " (" +:+ file +:+ ":" +:+ pretty (GetLineNumber frame) +:+ ")".

(** js.cc:172 *)
Definition ReportException_message (message : Message) (js : Js) : Js :=
  let str := ToString (Get message) in
  let trace :=
    match GetStackTrace message with
    | None => []
    | Some frames => map format_frame frames
    end in
  call_delegate (OnJavascriptException str trace) js.

(** js.cc:193 *)
Definition ReportException_value (value : Value) (js : Js) : Js :=
  call_delegate (OnJavascriptException (ToString value) []) js.

(** js.cc:198 *)
Definition SuppressNextScriptResult (js : Js) : Js :=
  set_suppress true js.

(** *** Promises *)

(** js.cc:465 *)
Definition OnModuleFailure (info : list Value) (js : Js) : Js :=
  if bool_decide (1 ≤ length info)%nat then
    match info with
    | error :: _ => ReportException_value error js
    | [] => js
    end
  else js.

(** js.cc:454 *)
Definition OnMainModuleResolve (info : list Value) (js : Js) : Js :=
  call_delegate OnMainModuleLoaded js.

(** js.cc:459 *)
Definition OnMainModuleFailure (info : list Value) (js : Js) : Js :=
  call_delegate OnMainModuleLoaded (OnModuleFailure info js).

Definition run_callback (cb : Callback) (info : list Value) (js : Js) : Js :=
  match cb with
  | CbOnMainModuleResolve => OnMainModuleResolve info js
  | CbOnMainModuleFailure => OnMainModuleFailure info js
  | CbOnModuleFailure => OnModuleFailure info js
  end.

(** A new promise in the given state; its number is returned. *)
Definition Promise_New (s : PromiseState) (js : Js) : nat * Js :=
  let i := isolate_ js in
  let p := next_promise i in
  (p, with_isolate (set_promises (S p) (<[p := s]> (promises i))) js).

Definition Promise_State (p : nat) (js : Js) : PromiseState :=
  default kPending (promises (isolate_ js) !! p).

(** The continuations of promise [p] that a settlement in state [s] runs,
    in the order they were attached. *)
Fixpoint run_reactions (p : nat) (s : PromiseState) (rs : list Reaction)
    (js : Js) : Js :=
  match rs with
  | [] => js
  | r :: rs =>
      let js :=
        if bool_decide (reaction_promise r = p) then
          match s with
          | kPending => js
          | kFulfilled v =>
              match on_fulfilled r with
              | Some cb => run_callback cb [v] js
              | None => js
              end
          | kRejected v =>
              match on_rejected r with
              | Some cb => run_callback cb [v] js
              | None => js
              end
          end
        else js in
      run_reactions p s rs js
  end.

(** The engine settles a promise: a pending promise takes the state [s] and
    its continuations run; a settled promise stays as it is. *)
Definition Promise_Settle (p : nat) (s : PromiseState) (js : Js) : Js :=
  match Promise_State p js with
  | kPending =>
      let i := isolate_ js in
      let js :=
        with_isolate (set_promises (next_promise i) (<[p := s]> (promises i)))
          js in
      run_reactions p s (reactions i) js
  | _ => js
  end.

(** [Promise::Then(context, on_fulfilled, on_rejected)] *)
Definition Promise_Then (p : nat) (f r : Callback) (js : Js) : Js :=
  with_isolate (add_reaction (mkReaction p (Some f) (Some r))) js.

(** [Promise::Catch(context, on_rejected)] *)
Definition Promise_Catch (p : nat) (r : Callback) (js : Js) : Js :=
  with_isolate (add_reaction (mkReaction p None (Some r))) js.

(** [v8::Promise::Resolver::New]: the handle is empty only when the engine
    is shutting down, which this model of the isolate never does. *)
Definition Resolver_New (js : Js) : option (nat * Js) :=
  Some (Promise_New kPending js).

(** [Resolver::Reject(...).FromMaybe(false)] *)
Definition Resolver_Reject (resolver : nat) (value : Value) (js : Js)
  : bool * Js :=
  (true, Promise_Settle resolver (kRejected value) js).

(** [Resolver::Resolve(...).FromMaybe(false)] *)
Definition Resolver_Resolve (resolver : nat) (value : Value) (js : Js)
  : bool * Js :=
  (true, Promise_Settle resolver (kFulfilled value) js).

(** *** Loading sources and compiling *)

(** js.cc:391.  The comparison [path == "--console"] of a path with a
    one-component literal holds for that very string only. *)
Definition LoadModuleSource (path : string) (paths : list string) (js : Js)
  : option string * Js :=
  if bool_decide (path = "--console") then
    (Some (GzipUncompress W (kEmbeddedConsoleSource W)), js)
  else if bool_decide (path = "--welcome") then
    (Some (GzipUncompress W (kEmbeddedWelcomeSource W)), js)
  else if bool_decide (substr0 2 path = "--") then
    (None, ThrowError ("Invalid module name: " +:+ path) js)
  else
    let js := log_read path js in
    match ReadFile W path with
    | inl content => (Some content, js)
    | inr error =>
        (None,
         ThrowError
           (error +:+ nl +:+ AppendModulePath (base_path_ js) paths) js)
    end.

(** js.cc:416.  The handle the engine returns carries the next script
    identifier and the resource name of the origin. *)
Definition CompileModule (source path : string) (paths : list string)
    (js : Js) : option Module * Js :=
  match v8_CompileModule W source path with
  | inl requests =>
      let module := mkModule (next_script_id (isolate_ js)) path requests in
      (Some module, with_isolate (add_compiled module) js)
  | inr exception =>
      (None,
       ThrowError
         (ToString exception +:+ nl +:+
          AppendModulePath (base_path_ js) paths) js)
  end.

(** js.cc:340-341 *)
Definition register_module (path : string) (module : Module) (js : Js) : Js :=
  set_registry (<[path := module]> (modules_ js))
    (<[ScriptId module := path]> (module_path_by_id_ js)) js.

(** The loop of js.cc:348-365 over the import requests of a module that
    lives in directory [dir]; [rec] is the recursive call of
    [LoadModuleTree].  The boolean tells whether the loop ran to its end
    ([false]: the function returned an empty handle from inside it). *)
Fixpoint LoadModuleTree_requests
    (rec : string → list string → Js → Res (option Module * list string * Js))
    (dir : string) (requests : list string) (paths : list string) (js : Js)
  : Res (bool * list string * Js) :=
  match requests with
  | [] => Ok (true, paths, js)
  | spec :: requests =>
      if negb (IsValidImport spec) then
        Ok (false, paths, ThrowError (MakeInvalidImportError spec) js)
      else
        let subpath := lexically_normal W (path_div W dir spec) in
        match modules_ js !! subpath with
        | Some _ => LoadModuleTree_requests rec dir requests paths js
        | None =>
            let paths := (paths ++ [subpath])%list in
            '(sub, paths, js) ← rec subpath paths js;
            let failed := bool_decide (sub = None) in
            let paths := removelast paths in
            if failed then Ok (false, paths, js)
            else LoadModuleTree_requests rec dir requests paths js
        end
  end.

(** js.cc:314.  The vector [paths] is passed by pointer: it is an argument
    and a result. *)
Fixpoint LoadModuleTree (fuel : nat) (path : string) (paths : list string)
    (js : Js) : Res (option Module * list string * Js) :=
  match fuel with
  | O => OutOfFuel
  | S fuel =>
      match modules_ js !! path with
      | Some module => Ok (Some module, paths, js)
      | None =>
          let '(source, js) := LoadModuleSource path paths js in
          match source with
          | None => Ok (None, paths, js)
          | Some source =>
              let '(module, js) := CompileModule source path paths js in
              match module with
              | None => Ok (None, paths, js)
              | Some module =>
                  _ ← ASSERT (bool_decide
                         (module_path_by_id_ js !! ScriptId module = None));
                  let js := register_module path module js in
                  let dir := remove_filename W path in
                  '(completed, paths, js) ←
                    LoadModuleTree_requests (LoadModuleTree fuel) dir
                      (GetModuleRequests module) paths js;
                  if completed : bool then Ok (Some module, paths, js)
                  else Ok (None, paths, js)
              end
          end
      end
  end.

(** js.cc:371 *)
Definition ResolveModule (js : Js) (referrer : Module) (specifier : string)
  : Res Module :=
  match module_path_by_id_ js !! ScriptId referrer with
  | None => AssertFailed
  | Some it =>
      let referrer_dir := remove_filename W it in
      let path := lexically_normal W (path_div W referrer_dir specifier) in
      match modules_ js !! path with
      | None => AssertFailed
      | Some module => Ok module
      end
  end.

(** *** Dynamic imports: the request *)

(** js.cc:481; [ref] is the referrer's resource name, a string (the
    assertion of js.cc:490).  The result is the promise handed back to the
    engine. *)
Definition ImportDynamic (ref spec : string) (js : Js)
  : Res (option nat * Js) :=
  match Resolver_New js with
  | None => Ok (None, js)
  | Some (resolver, js) =>
      if negb (IsValidImport spec) then
        let '(rejected, js) :=
          Resolver_Reject resolver (VString (MakeInvalidImportError spec)) js in
        _ ← ASSERT rejected;
        Ok (Some resolver, js)
      else
        dir ←
          (if bool_decide (ref = "<console>") then Ok (base_path_ js)
           else
             _ ← ASSERT (bool_decide (is_Some (modules_ js !! ref)));
             Ok (remove_filename W ref));
        let path_str := lexically_normal W (path_div W dir spec) in
        match dynamic_imports_ js !! path_str with
        | Some it => Ok (Some it, js)
        | None =>
            let js :=
              set_dynamic_imports (<[path_str := resolver]> (dynamic_imports_ js))
                js in
            let js :=
              set_task_queue (task_queue_ js ++ [TaskImportDynamic path_str])%list
                js in
            Ok (Some resolver, js)
        end
  end.

(** The host calls script code makes while it runs, in order. *)
Fixpoint run_host_calls (calls : list HostCall) (js : Js) : Res Js :=
  match calls with
  | [] => Ok js
  | HostImportDynamic referrer specifier :: calls =>
      '(_, js) ← ImportDynamic referrer specifier js;
      run_host_calls calls js
  | HostSuppressNextScriptResult :: calls =>
      run_host_calls calls (SuppressNextScriptResult js)
  end.

(** *** Activation *)

(** js.cc:266 *)
Definition LoadModuleByPath (fuel : nat) (path : string)
    (is_main_module : bool) (js : Js) : Res (option Module * Js) :=
  let paths := [path] in
  '(module, _, js) ← LoadModuleTree fuel path paths js;
  match module with
  | None => Ok (None, js)
  | Some module =>
      match
        v8_InstantiateModule W (heap (isolate_ js)) (ResolveModule js) module
      with
      | InstantiateAborted => AssertFailed
      | InstantiateThrows exception h =>
          let js := with_isolate (set_heap h) js in
          Ok (None, ThrowException exception js)
      | Instantiated h =>
          let js := with_isolate (set_heap h) js in
          let '(calls, completion, h) :=
            v8_Evaluate W (heap (isolate_ js)) module in
          let js := with_isolate (set_heap h) js in
          js ← run_host_calls calls js;
          match completion with
          | EvalThrows exception => Ok (None, ThrowException exception js)
          | EvalPromise state =>
              let '(promise, js) := Promise_New state js in
              match Promise_State promise js with
              | kRejected result => Ok (None, ThrowException result js)
              | kPending =>
                  if is_main_module then
                    Ok (Some module,
                        Promise_Then promise CbOnMainModuleResolve
                          CbOnMainModuleFailure js)
                  else
                    Ok (Some module,
                        Promise_Catch promise CbOnModuleFailure js)
              | kFulfilled _ =>
                  if is_main_module then
                    Ok (Some module, call_delegate OnMainModuleLoaded js)
                  else Ok (Some module, js)
              end
          end
      end
  end.

(** js.cc:247 *)
Definition LoadMainModule (fuel : nat) (name : string) (js : Js) : Res Js :=
  let js := TryCatch_enter js in
  let path :=
    if bool_decide (substr0 2 name = "--") then name
    else lexically_normal W (path_div W (base_path_ js) name) in
  '(module, js) ← LoadModuleByPath fuel path true js;
  match module with
  | None =>
      match exception (isolate_ js) with
      | None => AssertFailed
      | Some caught =>
          let js := ReportException_message (v8_Message W caught) js in
          let js := call_delegate OnMainModuleLoaded js in
          Ok (TryCatch_Reset js)
      end
  | Some _ =>
      _ ← ASSERT (negb (HasCaught js));
      Ok js
  end.

(** *** Dynamic imports: the deferred task *)

(** js.cc:528 *)
Definition ImportDynamic_task (fuel : nat) (path_str : string) (js : Js)
  : Res Js :=
  let js := TryCatch_enter js in
  match dynamic_imports_ js !! path_str with
  | None => AssertFailed
  | Some resolver =>
      let js :=
        set_dynamic_imports (delete path_str (dynamic_imports_ js)) js in
      '(module, js) ← LoadModuleByPath fuel path_str false js;
      match module with
      | None =>
          match exception (isolate_ js) with
          | None => AssertFailed
          | Some caught =>
              let js := TryCatch_Reset js in
              let '(rejected, js) := Resolver_Reject resolver caught js in
              _ ← ASSERT rejected;
              Ok js
          end
      | Some module =>
          let '(resolved, js) :=
            Resolver_Resolve resolver (VModuleNamespace (ScriptId module)) js in
          _ ← ASSERT resolved;
          Ok js
      end
  end.

(** Modelled from the spec: the task queue is a collaborator whose code is
    not part of js.cc; per the spec it is cooperative and first-in
    first-out.  One turn runs the oldest posted closure. *)
Definition run_next_task (fuel : nat) (js : Js) : Res Js :=
  match task_queue_ js with
  | [] => Ok js
  | TaskImportDynamic path_str :: queue =>
      ImportDynamic_task fuel path_str (set_task_queue queue js)
  end.

(** *** Inline scripts *)

(** js.cc:202 *)
Definition ExecuteScript (source : string) (js : Js)
  : Res (option string * Js) :=
  let js := TryCatch_enter js in
  match v8_Script_Compile W source with
  | Some caught =>
      let js := ThrowException caught js in
      let js := ReportException_message (v8_Message W caught) js in
      Ok (None, TryCatch_Reset js)
  | None =>
      let '(calls, completion, h) :=
        v8_Script_Run W (heap (isolate_ js)) source in
      let js := with_isolate (set_heap h) js in
      js ← run_host_calls calls js;
      match completion with
      | RunThrows caught =>
          let js := ThrowException caught js in
          let js := set_suppress false js in
          let js := ReportException_message (v8_Message W caught) js in
          Ok (None, TryCatch_Reset js)
      | RunValue result =>
          if suppress_next_script_result_ js then
            let js := set_suppress false js in
            Ok (None, js)
          else Ok (Some (ToString result), js)
      end
  end.

End Model.

Arguments mkJs {W}.
Arguments mkIsolate {W}.
Arguments heap {W}.
Arguments next_script_id {W}.
Arguments compiled {W}.
Arguments next_promise {W}.
Arguments promises {W}.
Arguments reactions {W}.
Arguments exception {W}.
Arguments delegate_ {W}.
Arguments base_path_ {W}.
Arguments task_queue_ {W}.
Arguments suppress_next_script_result_ {W}.
Arguments isolate_ {W}.
Arguments modules_ {W}.
Arguments module_path_by_id_ {W}.
Arguments dynamic_imports_ {W}.
Arguments files_read {W}.
Arguments set_exception {W}.
Arguments set_heap {W}.
Arguments add_compiled {W}.
Arguments set_promises {W}.
Arguments add_reaction {W}.
Arguments with_isolate {W}.
Arguments call_delegate {W}.
Arguments set_task_queue {W}.
Arguments set_suppress {W}.
Arguments set_registry {W}.
Arguments set_dynamic_imports {W}.
Arguments log_read {W}.
Arguments TryCatch_enter {W}.
Arguments HasCaught {W}.
Arguments TryCatch_Reset {W}.
Arguments ThrowException {W}.
Arguments ThrowError {W}.
Arguments ReportException_message {W}.
Arguments ReportException_value {W}.
Arguments SuppressNextScriptResult {W}.
Arguments OnModuleFailure {W}.
Arguments OnMainModuleResolve {W}.
Arguments OnMainModuleFailure {W}.
Arguments run_callback {W}.
Arguments Promise_New {W}.
Arguments Promise_State {W}.
Arguments run_reactions {W}.
Arguments Promise_Settle {W}.
Arguments Promise_Then {W}.
Arguments Promise_Catch {W}.
Arguments Resolver_New {W}.
Arguments Resolver_Reject {W}.
Arguments Resolver_Resolve {W}.
Arguments LoadModuleSource {W}.
Arguments CompileModule {W}.
Arguments register_module {W}.
Arguments LoadModuleTree_requests {W}.
Arguments LoadModuleTree {W}.
Arguments ResolveModule {W}.
Arguments ImportDynamic {W}.
Arguments run_host_calls {W}.
Arguments LoadModuleByPath {W}.
Arguments LoadMainModule {W}.
Arguments ImportDynamic_task {W}.
Arguments run_next_task {W}.
Arguments ExecuteScript {W}.

(** ** A small concrete world

    A POSIX reading of the [std::filesystem] operations, a file system with a
    handful of files and a toy engine.  It is used to run the model on
    concrete inputs. *)

Module Demo.

Definition slash : Ascii.ascii := Ascii.ascii_of_nat 47.

Fixpoint split_on (c : Ascii.ascii) (s : string) : list string :=
  match s with
  | EmptyString => [EmptyString]
  | String a s =>
      if bool_decide (a = c) then EmptyString :: split_on c s
      else
        match split_on c s with
        | h :: t => String a h :: t
        | [] => [String a EmptyString]
        end
  end.

Fixpoint join_with (sep : string) (l : list string) : string :=
  match l with
  | [] => EmptyString
  | [x] => x
  | x :: l => x +:+ sep +:+ join_with sep l
  end.

Definition ends_with_slash (s : string) : bool :=
  match last (split_on slash s) with
  | Some EmptyString => negb (bool_decide (s = EmptyString))
  | _ => false
  end.

(** [a / b] *)
Definition path_div (a b : string) : string :=
  if String.prefix "/" b then b
  else if bool_decide (a = EmptyString) then b
  else if ends_with_slash a then a +:+ b
  else a +:+ "/" +:+ b.

(** [p.remove_filename()]: everything up to and including the last
    separator. *)
Definition remove_filename (p : string) : string :=
  match split_on slash p with
  | [] | [_] => EmptyString
  | comps => join_with "/" (removelast comps) +:+ "/"
  end.

(** One component of [lexically_normal]: the stack of kept components
    (innermost first) and whether a separator trails. *)
Definition normal_step (rooted : bool) (st : list string * bool) (c : string)
  : list string * bool :=
  let '(stack, _) := st in
  if bool_decide (c = EmptyString) then (stack, true)
  else if bool_decide (c = ".") then (stack, true)
  else if bool_decide (c = "..") then
    match stack with
    | top :: rest =>
        if bool_decide (top = "..") then (c :: stack, false) else (rest, true)
    | [] => if rooted then ([], false) else ([c], false)
    end
  else (c :: stack, false).

Definition lexically_normal (p : string) : string :=
  if bool_decide (p = EmptyString) then EmptyString
  else
    let rooted := String.prefix "/" p in
    let comps := split_on slash p in
    let comps := if rooted then tail comps else comps in
    let '(stack, trailing) := foldl (normal_step rooted) ([], false) comps in
    let body := join_with "/" (rev stack) in
    let tail_sep :=
      match stack with
      | top :: _ => trailing && negb (bool_decide (top = ".."))
      | [] => false
      end in
    let r :=
      (if rooted then "/" else EmptyString) +:+ body +:+
      (if tail_sep then "/" else EmptyString) in
    if bool_decide (r = EmptyString) then "." else r.

Fixpoint strip_common (a b : list string) : list string * list string :=
  match a, b with
  | x :: a', y :: b' =>
      if bool_decide (x = y) then strip_common a' b' else (a, b)
  | _, _ => (a, b)
  end.

(** [std::filesystem::relative(p, base)], read lexically. *)
Definition fs_relative (p base : string) : string :=
  let keep := filter (λ c, c ≠ EmptyString) in
  let '(a, b) :=
    strip_common (keep (split_on slash p)) (keep (split_on slash base)) in
  let r := join_with "/" (replicate (length b) ".." ++ a)%list in
  if bool_decide (r = EmptyString) then "." else r.

(** The files on disk: path and content. *)
Definition files : list (string * string) :=
  [ ("/app/main.js", "import ./util.js");
    ("/app/util.js", "import ./helpers.js");
    ("/app/a.js", "import ./b.js");
    ("/app/b.js", "import ./a.js");
    ("/app/bad.js", "import ./ok.js;import lodash;import ./a.js");
    ("/app/ok.js", "export 1");
    ("/app/async.js", "await later");
    ("/app/reject.js", "throw now");
    ("/app/broken.js", "syntax error");
    ("/app/diamond.js", "import ./left.js;import ./lib/../right.js");
    ("/app/left.js", "import ./ok.js");
    ("/app/right.js", "import ./ok.js") ].

Fixpoint assoc (k : string) (l : list (string * string)) : option string :=
  match l with
  | [] => None
  | (k', v) :: l => if bool_decide (k = k') then Some v else assoc k l
  end.

Definition ReadFile (path : string) : string + string :=
  match assoc path files with
  | Some content => inl content
  | None => inr ("Failed to read file: " +:+ path)
  end.

Definition semicolon : Ascii.ascii := Ascii.ascii_of_nat 59.

Definition strip_prefix (p s : string) : option string :=
  if String.prefix p s
  then Some (String.substring (String.length p)
               (String.length s - String.length p) s)
  else None.

(** A toy module syntax: statements are separated by semicolons, and the
    statement [import x] requests the specifier [x]. *)
Definition CompileModule (source resource_name : string)
  : list string + Value :=
  let statements := split_on semicolon source in
  if bool_decide ("syntax error" ∈ statements) then
    inr (VOther (Some "SyntaxError: Unexpected identifier") "object")
  else inl (omap (strip_prefix "import ") statements).

Definition undefined : Value := VOther (Some "undefined") "undefined".

Definition Evaluate (h : unit) (module : Module)
  : list HostCall * EvalCompletion * unit :=
  let source := assoc (ResourceName module) files in
  if bool_decide (source = Some "await later") then
    ([], EvalPromise kPending, h)
  else if bool_decide (source = Some "throw now") then
    ([], EvalPromise (kRejected (v8_Error "thrown by the module")), h)
  else ([], EvalPromise (kFulfilled undefined), h).

Fixpoint Instantiate (depth : nat) (resolve : Module → string → Res Module)
    (module : Module) : Res unit :=
  match depth with
  | O => Ok tt
  | S depth =>
      foldr
        (λ spec r, dep ← resolve module spec;
                   _ ← Instantiate depth resolve dep; r)
        (Ok tt) (GetModuleRequests module)
  end.

Definition InstantiateModule (h : unit)
    (resolve : Module → string → Res Module) (module : Module)
  : InstantiateResult unit :=
  match Instantiate 4 resolve module with
  | Ok _ => Instantiated h
  | _ => InstantiateAborted
  end.

Definition Script_Compile (source : string) : option Value :=
  if bool_decide (source = "syntax error")
  then Some (VOther (Some "SyntaxError: Unexpected identifier") "object")
  else None.

Definition Script_Run (h : unit) (source : string)
  : list HostCall * RunCompletion * unit :=
  if bool_decide (source = "throw now") then
    ([], RunThrows (v8_Error "thrown by the script"), h)
  else if bool_decide (source = "quiet()") then
    ([HostSuppressNextScriptResult], RunValue undefined, h)
  else
    match strip_prefix "import " source with
    | Some spec =>
        ([HostImportDynamic "<console>" spec],
         RunValue (VOther (Some "[object Promise]") "object"), h)
    | None => ([], RunValue (VString source), h)
    end.

Definition MessageOf (caught : Value) : Message :=
  mkMessage (VString ("Uncaught " +:+ ToString caught)) (Some []).

Definition world : World :=
  mkWorld unit path_div lexically_normal remove_filename fs_relative ReadFile
    (λ s, s) "console source" "welcome source" Script_Compile Script_Run
    CompileModule InstantiateModule Evaluate MessageOf.

(** A fresh session whose base path is [/app]. *)
Definition js0 : Js world := Js_new world "/app" tt.

End Demo.

(** ** Vocabulary of the statements *)

Section Vocabulary.

Context (W : World).

(** [(dir / spec).lexically_normal()], the expression js.cc uses at lines
    356, 383 and 510. *)
Definition resolve_in (dir spec : string) : string :=
  lexically_normal W (path_div W dir spec).

(** The path [LoadMainModule] hands to the loader (js.cc:252-253). *)
Definition main_module_path (js : Js W) (name : string) : string :=
  if bool_decide (substr0 2 name = "--") then name
  else lexically_normal W (path_div W (base_path_ js) name).

(** The source [LoadModuleSource] obtains for a path, when it obtains one. *)
Definition module_source (path : string) : option string :=
  if bool_decide (path = "--console") then
    Some (GzipUncompress W (kEmbeddedConsoleSource W))
  else if bool_decide (path = "--welcome") then
    Some (GzipUncompress W (kEmbeddedWelcomeSource W))
  else if bool_decide (substr0 2 path = "--") then None
  else
    match ReadFile W path with
    | inl content => Some content
    | inr _ => None
    end.

(** The import specifiers of the module at a path, when it loads and
    compiles. *)
Definition static_imports (path : string) : option (list string) :=
  match module_source path with
  | None => None
  | Some source =>
      match v8_CompileModule W source path with
      | inl requests => Some requests
      | inr _ => None
      end
  end.

(** The edges of the import graph that leave [path]. *)
Definition import_targets (path : string) : list string :=
  match static_imports path with
  | None => []
  | Some requests =>
      resolve_in (remove_filename W path) <$>
        filter (λ spec, IsValidImport spec = true) requests
  end.

(** A finite set of paths that the import edges do not leave. *)
Definition import_closed (U : gset string) : Prop :=
  ∀ p q, p ∈ U → q ∈ import_targets p → q ∈ U.

(** The two indexes of the registry agree, every script identifier in use
    was handed out by the engine, and the modules the engine compiled are the
    registered ones, one per path. *)
Record registry_wf (js : Js W) : Prop := mk_registry_wf {
  wf_path_id : ∀ p m,
    modules_ js !! p = Some m →
    module_path_by_id_ js !! ScriptId m = Some p;
  wf_id_path : ∀ id p,
    module_path_by_id_ js !! id = Some p →
    ∃ m, modules_ js !! p = Some m ∧ ScriptId m = id;
  wf_id_fresh : ∀ id p,
    module_path_by_id_ js !! id = Some p →
    (id < next_script_id (isolate_ js))%Z;
  wf_name : ∀ p m, modules_ js !! p = Some m → ResourceName m = p;
  wf_compiled : ∀ m,
    m ∈ compiled (isolate_ js) ↔
    modules_ js !! ResourceName m = Some m;
  wf_once : NoDup (ResourceName <$> compiled (isolate_ js))
}.

(** The atomic changes the graph loader makes to the session: it throws, it
    reads a file, or it compiles a module and registers it under a path and
    a script identifier that were both free. *)
Inductive load_step : Js W → Js W → Prop :=
  | step_throw js v :
      load_step js (ThrowException v js)
  | step_read js path :
      load_step js (log_read path js)
  | step_register js path requests :
      let module := mkModule (next_script_id (isolate_ js)) path requests in
      modules_ js !! path = None →
      module_path_by_id_ js !! ScriptId module = None →
      load_step js
        (register_module path module (with_isolate (add_compiled module) js)).

(** The session once [LoadModuleSource] has obtained the source of [path]:
    a virtual module reads no file. *)
Definition read_state (path : string) (js : Js W) : Js W :=
  if bool_decide (substr0 2 path = "--") then js else log_read path js.

(** The handle the engine gives for the next module it compiles. *)
Definition next_module (js : Js W) (path : string) (requests : list string)
  : Module :=
  mkModule (next_script_id (isolate_ js)) path requests.

(** The session once the module at [path] has been read, compiled and
    registered, its dependencies not yet visited. *)
Definition loaded_state (path : string) (requests : list string) (js : Js W)
  : Js W :=
  let module := next_module js path requests in
  register_module path module
    (with_isolate (add_compiled module) (read_state path js)).

(** The module at [path] loads, compiles, and imports the single specifier
    [spec], which resolves to [target]. *)
Definition imports_only (path spec target : string) : Prop :=
  ∃ source,
    module_source path = Some source ∧
    v8_CompileModule W source path = inl [spec] ∧
    IsValidImport spec = true ∧
    resolve_in (remove_filename W path) spec = target.

(** The session after the delegate received the calls [l], in order. *)
Definition call_delegate_list (l : list DelegateCall) (js : Js W) : Js W :=
  mkJs (delegate_ js ++ l)%list (base_path_ js) (task_queue_ js)
    (suppress_next_script_result_ js) (isolate_ js) (modules_ js)
    (module_path_by_id_ js) (dynamic_imports_ js) (files_read js).

(** The calls on the delegate that each promise callback makes. *)
Definition failure_calls (info : list Value) : list DelegateCall :=
  match info with
  | error :: _ => [OnJavascriptException (ToString error) []]
  | [] => []
  end.

Definition callback_calls (cb : Callback) (info : list Value)
  : list DelegateCall :=
  match cb with
  | CbOnMainModuleResolve => [OnMainModuleLoaded]
  | CbOnMainModuleFailure => failure_calls info ++ [OnMainModuleLoaded]
  | CbOnModuleFailure => failure_calls info
  end.

(** The calls on the delegate made when promise [p] settles in state [s]
    with the continuations [rs] attached. *)
Fixpoint reaction_calls (p : nat) (s : PromiseState) (rs : list Reaction)
  : list DelegateCall :=
  match rs with
  | [] => []
  | r :: rs =>
      (if bool_decide (reaction_promise r = p) then
         match s with
         | kPending => []
         | kFulfilled v =>
             match on_fulfilled r with
             | Some cb => callback_calls cb [v]
             | None => []
             end
         | kRejected v =>
             match on_rejected r with
             | Some cb => callback_calls cb [v]
             | None => []
             end
         end
       else []) ++ reaction_calls p s rs
  end.

(** The continuation [LoadModuleByPath] attaches to the pending promise of a
    main module (js.cc:298-301). *)
Definition main_reaction (p : nat) : Reaction :=
  mkReaction p (Some CbOnMainModuleResolve) (Some CbOnMainModuleFailure).

(** What a dynamic import request and the settlement of a promise leave
    alone: the registry, the engine's modules, the pending exception, the
    continuations and the file reads; the delegate only receives further
    calls. *)
Definition request_frame (js js' : Js W) : Prop :=
  base_path_ js' = base_path_ js ∧
  modules_ js' = modules_ js ∧
  module_path_by_id_ js' = module_path_by_id_ js ∧
  files_read js' = files_read js ∧
  heap (isolate_ js') = heap (isolate_ js) ∧
  next_script_id (isolate_ js') = next_script_id (isolate_ js) ∧
  compiled (isolate_ js') = compiled (isolate_ js) ∧
  reactions (isolate_ js') = reactions (isolate_ js) ∧
  exception (isolate_ js') = exception (isolate_ js) ∧
  ∃ calls, delegate_ js' = (delegate_ js ++ calls)%list.

(** Every import of a registered module is registered: no module of the
    registry was left behind by a load that failed on one of its
    dependencies. *)
Definition registry_closed (js : Js W) : Prop :=
  ∀ p m spec,
    modules_ js !! p = Some m →
    spec ∈ GetModuleRequests m →
    is_Some (modules_ js !! resolve_in (remove_filename W p) spec).

(** The modules the engine can reach from [root] by following import
    requests through a resolve callback. *)
Inductive resolve_reach (resolve : Module → string → Res Module)
    (root : Module) : Module → Prop :=
  | reach_root : resolve_reach resolve root root
  | reach_edge r spec r' :
      resolve_reach resolve root r →
      spec ∈ GetModuleRequests r →
      resolve r spec = Ok r' →
      resolve_reach resolve root r'.

(** What the loader expects of the engine.  Instantiation calls the resolve
    callback only on import requests of modules reachable from the root, so
    it is stopped by an assertion only if one of these calls fails; and the
    code that runs when the root is evaluated belongs to modules linked to
    it, so a dynamic import made by that code has one of them, or the
    console, as its referrer. *)
Definition engine_contract : Prop :=
  (∀ h resolve root,
     v8_InstantiateModule W h resolve root = InstantiateAborted →
     ∃ r spec,
       resolve_reach resolve root r ∧
       spec ∈ GetModuleRequests r ∧
       ∀ r', resolve r spec ≠ Ok r') ∧
  (∀ h resolve root h1 referrer spec,
     v8_InstantiateModule W h resolve root = Instantiated h1 →
     HostImportDynamic referrer spec ∈ (v8_Evaluate W h1 root).1.1 →
     referrer = "<console>" ∨
     ∃ r, resolve_reach resolve root r ∧ ResourceName r = referrer).

(** The modules registered between [js] and [js'] have all their imports
    registered in [js']. *)
Definition new_closed (js js' : Js W) : Prop :=
  ∀ p m spec,
    modules_ js' !! p = Some m →
    modules_ js !! p = None →
    spec ∈ GetModuleRequests m →
    is_Some (modules_ js' !! resolve_in (remove_filename W p) spec).

(** The paths of the posted closures. *)
Definition task_paths (q : list Task) : list string :=
  (λ t, match t with TaskImportDynamic p => p end) <$> q.

(** Each posted closure has its pending entry and each pending entry its
    closure, once. *)
Definition pending_wf (js : Js W) : Prop :=
  NoDup (task_paths (task_queue_ js)) ∧
  ∀ p, p ∈ task_paths (task_queue_ js) ↔
       is_Some (dynamic_imports_ js !! p).

(** The directory against which [ImportDynamic] resolves a specifier
    (js.cc:500-508), when the assertion on the referrer holds. *)
Definition referrer_dir (js : Js W) (ref : string) : option string :=
  if bool_decide (ref = "<console>") then Some (base_path_ js)
  else if bool_decide (is_Some (modules_ js !! ref))
       then Some (remove_filename W ref)
       else None.

(** The line [AppendModulePath] prints for an outer path. *)
Definition from_line (base_path path : string) : string :=
  "       from " +:+ fs_relative W path base_path +:+ nl.

(** The line [AppendModulePath] prints for the innermost path. *)
Definition loading_line (base_path path : string) : string :=
  "    loading " +:+ fs_relative W path base_path +:+ nl.

Fixpoint concat_lines (l : list string) : string :=
  match l with
  | [] => EmptyString
  | x :: l => x +:+ concat_lines l
  end.

(** The chain [AppendModulePath] prints for the load stack
    [outer ++ [inner]]: the innermost path on the loading line, then the
    outer paths, innermost first, on from lines. *)
Definition load_chain (base_path : string) (outer : list string)
    (inner : string) : string :=
  loading_line base_path inner +:+
  concat_lines (from_line base_path <$> rev outer).

(** The exception a failing load leaves pending, by the place that threw
    it (js.cc:411, 448, 399 and 353), the load stack being
    [outer ++ [inner]] there. *)
Definition load_failure (base_path : string) (outer : list string)
    (inner : string) (caught : Value) : Prop :=
  (∃ error,
     substr0 2 inner ≠ "--" ∧ ReadFile W inner = inr error ∧
     caught = v8_Error (error +:+ nl +:+ load_chain base_path outer inner)) ∨
  (∃ source e,
     module_source inner = Some source ∧
     v8_CompileModule W source inner = inr e ∧
     caught
     = v8_Error (ToString e +:+ nl +:+ load_chain base_path outer inner)) ∨
  (substr0 2 inner = "--" ∧
   caught = v8_Error ("Invalid module name: " +:+ inner)) ∨
  (∃ spec,
     IsValidImport spec = false ∧
     caught = v8_Error (MakeInvalidImportError spec)).

(** Where a failing load threw: the load stack at that point extends the
    stack of the call, and the exception left pending is the one thrown
    there. *)
Definition failed_at (stack : list string) (js' : Js W) : Prop :=
  ∃ more outer inner caught,
    (outer ++ [inner] = stack ++ more)%list ∧
    exception (isolate_ js') = Some caught ∧
    load_failure (base_path_ js') outer inner caught.

(** The last character of the message of a pending exception. *)
Definition last_of_message (v : option Value) : option Ascii.ascii :=
  match v with
  | Some (VOther (Some s) _) => last (String.list_ascii_of_string s)
  | _ => None
  end.

(** The main-module notification was the last call on the delegate, the
    calls made before the load are all kept. *)
Definition notified_last (before : list DelegateCall) (js' : Js W) : Prop :=
  ∃ mid, delegate_ js' = (before ++ mid ++ [OnMainModuleLoaded])%list.

(** As [notified_last], the notification coming right after the report of
    an exception. *)
Definition reported_then_notified (before : list DelegateCall) (js' : Js W)
  : Prop :=
  ∃ mid message trace,
    delegate_ js' =
      (before ++ mid ++
       [OnJavascriptException message trace; OnMainModuleLoaded])%list.

End Vocabulary.

Arguments registry_wf {W}.
Arguments new_closed {W}.
Arguments registry_closed {W}.
Arguments call_delegate_list {W}.
Arguments request_frame {W}.
Arguments read_state {W}.
Arguments next_module {W}.
Arguments loaded_state {W}.
Arguments load_step {W}.
Arguments pending_wf {W}.
Arguments referrer_dir {W}.
Arguments main_module_path {W}.
Arguments notified_last {W}.
Arguments failed_at {W}.
Arguments reported_then_notified {W}.
Arguments step_throw {W}.
Arguments step_read {W}.
Arguments step_register {W}.
Arguments mk_registry_wf {W}.
Arguments wf_path_id {W}.
Arguments wf_id_path {W}.
Arguments wf_id_fresh {W}.
Arguments wf_name {W}.
Arguments wf_compiled {W}.
Arguments wf_once {W}.

(** ** Vocabulary of the further properties *)

Section FurtherVocabulary.

Context (W : World).

(** The promises of the scheduler are in order: every continuation is
    attached to a promise the engine has made; the promise stored for a
    pending dynamic import has been made, is still pending, carries no
    continuation of js.cc, and is stored for that path only. *)
Record promises_wf (js : Js W) : Prop := mk_promises_wf {
  pw_reactions : ∀ r,
    r ∈ reactions (isolate_ js) →
    (reaction_promise r < next_promise (isolate_ js))%nat;
  pw_bound : ∀ path p,
    dynamic_imports_ js !! path = Some p →
    (p < next_promise (isolate_ js))%nat;
  pw_pending : ∀ path p,
    dynamic_imports_ js !! path = Some p → Promise_State p js = kPending;
  pw_no_reaction : ∀ path p r,
    dynamic_imports_ js !! path = Some p →
    r ∈ reactions (isolate_ js) → reaction_promise r ≠ p;
  pw_inj : ∀ path1 path2 p,
    dynamic_imports_ js !! path1 = Some p →
    dynamic_imports_ js !! path2 = Some p → path1 = path2
}.

(** From [js] to [js'] the scheduler only grew: the promises made before
    keep their state, the pending imports stay, and what is new (a pending
    import, a continuation) is about a promise made since. *)
Definition promises_grow (js js' : Js W) : Prop :=
  (next_promise (isolate_ js) ≤ next_promise (isolate_ js'))%nat ∧
  (∀ q, (q < next_promise (isolate_ js))%nat →
        Promise_State q js' = Promise_State q js) ∧
  (∀ path p, dynamic_imports_ js !! path = Some p →
             dynamic_imports_ js' !! path = Some p) ∧
  (∀ path p, dynamic_imports_ js' !! path = Some p →
             dynamic_imports_ js !! path = Some p ∨
             (next_promise (isolate_ js) ≤ p)%nat) ∧
  (∀ r, r ∈ reactions (isolate_ js') →
        r ∈ reactions (isolate_ js) ∨
        (next_promise (isolate_ js) ≤ reaction_promise r)%nat) ∧
  (∃ posted,
     task_queue_ js' = (task_queue_ js ++ posted)%list).

(** The continuation [LoadModuleByPath] attaches to the pending promise of a
    module that is not the main module (js.cc:303-305). *)
Definition module_reaction (p : nat) : Reaction :=
  mkReaction p None (Some CbOnModuleFailure).

(** Two sessions that differ at most in the pending exception. *)
Definition same_but_exception (js1 js2 : Js W) : Prop :=
  with_isolate (set_exception None) js1 = with_isolate (set_exception None) js2.

(** One event in the life of a session: the embedder runs a script, loads a
    main module or lets the task queue take a turn, each of which returns;
    or the engine settles a promise that is not the resolver of a pending
    dynamic import, such as the promise of a module evaluation. *)
Inductive session_step : Js W → Js W → Prop :=
  | session_script source js r js' :
      ExecuteScript source js = Ok (r, js') → session_step js js'
  | session_main fuel name js js' :
      LoadMainModule fuel name js = Ok js' → session_step js js'
  | session_task fuel js js' :
      run_next_task fuel js = Ok js' → session_step js js'
  | session_settle p s js :
      (∀ path, dynamic_imports_ js !! path ≠ Some p) →
      session_step js (Promise_Settle p s js).

End FurtherVocabulary.

Arguments promises_wf {W}.
Arguments mk_promises_wf {W}.
Arguments pw_reactions {W}.
Arguments pw_bound {W}.
Arguments pw_pending {W}.
Arguments pw_no_reaction {W}.
Arguments pw_inj {W}.
Arguments promises_grow {W}.
Arguments same_but_exception {W}.
Arguments session_step {W}.
Arguments session_script {W}.
Arguments session_main {W}.
Arguments session_task {W}.
Arguments session_settle {W}.

(** ** Sessions of the concrete world *)

Module Scenario.

(** The session a load leaves, [Demo.js0] when the load does not return. *)
Definition after_load (r : Res (option Module * list string * Js Demo.world))
  : Js Demo.world :=
  match r with
  | Ok (_, _, js) => js
  | _ => Demo.js0
  end.

(** The session after the load of [/app/diamond.js], which imports
    [left.js] and [right.js], both of which import [ok.js]. *)
Definition js_diamond : Js Demo.world :=
  after_load (LoadModuleTree 5 "/app/diamond.js" ["/app/diamond.js"] Demo.js0).

(** The session once [/app/bad.js] is registered and its first import,
    [./ok.js], is loaded; its second import is [lodash]. *)
Definition js_bad_ok : Js Demo.world :=
  after_load
    (LoadModuleTree 2 "/app/ok.js" ["/app/bad.js"]
       (loaded_state "/app/bad.js" ["./ok.js"; "lodash"; "./a.js"] Demo.js0)).

End Scenario.

(** ** The graph loader as a sequence of steps *)

(** Reduce the binds of [Res] once their argument is known. *)
Ltac res_simpl := cbn [mbind Res_bind mret Res_ret].

Section Loader.

Context (W : World).

Implicit Types (js : Js W) (path dir spec : string) (paths : list string).

#[local] Arguments loaded_state : simpl never.
#[local] Arguments next_module : simpl never.
#[local] Arguments read_state : simpl never.

Lemma removelast_snoc {A} (l : list A) (x : A) : removelast (l ++ [x]) = l.
Proof. apply removelast_last. Qed.

Lemma load_step_frame js js' :
  load_step js js' →
  base_path_ js' = base_path_ js ∧
  task_queue_ js' = task_queue_ js ∧
  delegate_ js' = delegate_ js ∧
  suppress_next_script_result_ js' = suppress_next_script_result_ js ∧
  dynamic_imports_ js' = dynamic_imports_ js ∧
  heap (isolate_ js') = heap (isolate_ js) ∧
  next_promise (isolate_ js') = next_promise (isolate_ js) ∧
  promises (isolate_ js') = promises (isolate_ js) ∧
  reactions (isolate_ js') = reactions (isolate_ js).
Proof. intros H. destruct H; simpl; repeat split; reflexivity. Qed.

Lemma rtc_load_step_frame js js' :
  rtc load_step js js' →
  base_path_ js' = base_path_ js ∧
  task_queue_ js' = task_queue_ js ∧
  delegate_ js' = delegate_ js ∧
  suppress_next_script_result_ js' = suppress_next_script_result_ js ∧
  dynamic_imports_ js' = dynamic_imports_ js ∧
  heap (isolate_ js') = heap (isolate_ js) ∧
  next_promise (isolate_ js') = next_promise (isolate_ js) ∧
  promises (isolate_ js') = promises (isolate_ js) ∧
  reactions (isolate_ js') = reactions (isolate_ js).
Proof.
  induction 1 as [|a b c Hab _ IH]; [repeat split; reflexivity|].
  apply load_step_frame in Hab.
  destruct Hab as (? & ? & ? & ? & ? & ? & ? & ? & ?).
  destruct IH as (? & ? & ? & ? & ? & ? & ? & ? & ?).
  repeat split; congruence.
Qed.

Lemma load_step_mono js js' :
  load_step js js' →
  modules_ js ⊆ modules_ js' ∧ module_path_by_id_ js ⊆ module_path_by_id_ js'.
Proof.
  intros H. destruct H as [js v|js path|js path requests module Hp Hid]; simpl;
    [split; reflexivity..|].
  split; apply insert_subseteq; assumption.
Qed.

Lemma rtc_load_step_subseteq js js' :
  rtc load_step js js' →
  modules_ js ⊆ modules_ js' ∧ module_path_by_id_ js ⊆ module_path_by_id_ js'.
Proof.
  induction 1 as [|a b c Hab _ [IH1 IH2]]; [split; reflexivity|].
  apply load_step_mono in Hab as [H1 H2]. split; etrans; eassumption.
Qed.

Lemma rtc_load_step_mono js js' p m :
  rtc load_step js js' →
  modules_ js !! p = Some m → modules_ js' !! p = Some m.
Proof.
  intros H%rtc_load_step_subseteq Hp.
  eapply lookup_weaken; [exact Hp|apply H].
Qed.

Lemma LoadModuleSource_post path paths js r js' :
  LoadModuleSource path paths js = (r, js') →
  rtc load_step js js' ∧
  (modules_ js' = modules_ js ∧
   module_path_by_id_ js' = module_path_by_id_ js ∧
   next_script_id (isolate_ js') = next_script_id (isolate_ js) ∧
   compiled (isolate_ js') = compiled (isolate_ js)) ∧
  match r with
  | Some source =>
      module_source W path = Some source ∧
      exception (isolate_ js') = exception (isolate_ js)
  | None =>
      module_source W path = None ∧ is_Some (exception (isolate_ js'))
  end.
Proof.
  unfold LoadModuleSource, module_source.
  repeat case_bool_decide.
  - intros [= <- <-]. split; [constructor|]. repeat split; reflexivity.
  - intros [= <- <-]. split; [constructor|]. repeat split; reflexivity.
  - intros [= <- <-]. split; [apply rtc_once; constructor|].
    repeat split; try reflexivity. simpl. eauto.
  - destruct (ReadFile W path) as [content|error]; intros [= <- <-].
    + split; [apply rtc_once; constructor|]. repeat split; reflexivity.
    + split.
      * eapply rtc_l; [apply (step_read js path)|].
        apply rtc_once. constructor.
      * repeat split; try reflexivity. simpl. eauto.
Qed.

Lemma CompileModule_post source path paths js r js' :
  CompileModule source path paths js = (r, js') →
  match r with
  | Some module =>
      ∃ requests,
        v8_CompileModule W source path = inl requests ∧
        module = mkModule (next_script_id (isolate_ js)) path requests ∧
        js' = with_isolate (add_compiled module) js
  | None =>
      (∃ e, v8_CompileModule W source path = inr e) ∧
      load_step js js' ∧ is_Some (exception (isolate_ js'))
  end.
Proof.
  unfold CompileModule.
  destruct (v8_CompileModule W source path) as [requests|e]; intros [= <- <-].
  - exists requests. repeat split; reflexivity.
  - split; [eauto|]. split; [constructor|]. simpl. eauto.
Qed.

(** What a call of the loader guarantees to its caller. *)
Lemma LoadModuleTree_requests_post
    (rec : string → list string → Js W →
           Res (option Module * list string * Js W)) dir :
  (∀ path paths js r paths' js',
     rec path paths js = Ok (r, paths', js') →
     paths' = paths ∧ rtc load_step js js' ∧
     match r with
     | Some m =>
         modules_ js' !! path = Some m ∧
         exception (isolate_ js') = exception (isolate_ js)
     | None => is_Some (exception (isolate_ js'))
     end) →
  ∀ requests paths js completed paths' js',
    LoadModuleTree_requests rec dir requests paths js
      = Ok (completed, paths', js') →
    paths' = paths ∧ rtc load_step js js' ∧
    if completed then exception (isolate_ js') = exception (isolate_ js)
    else is_Some (exception (isolate_ js')).
Proof.
  intros Hrec requests.
  induction requests as [|spec requests IH]; intros paths js completed paths' js'.
  - intros [= <- <- <-]. repeat split; constructor.
  - simpl. destruct (IsValidImport spec); simpl.
    2:{ intros [= <- <- <-]. split; [reflexivity|].
        split; [apply rtc_once; constructor|]. eauto. }
    destruct (modules_ js !! _) as [m|] eqn:Hm; [apply IH|].
    destruct (rec _ _ js) as [[[sub paths1] js1]| |] eqn:Hsub; simpl; try discriminate.
    apply Hrec in Hsub as (-> & Hsteps & Hsub).
    rewrite removelast_snoc.
    destruct sub as [m|]; simpl.
    + intros H. apply IH in H as (-> & Hsteps' & H).
      split; [reflexivity|]. split; [etrans; eassumption|].
      destruct Hsub as [_ He]. destruct completed; [congruence|assumption].
    + intros [= <- <- <-]. repeat split; assumption.
Qed.

Lemma LoadModuleTree_post fuel :
  ∀ path paths js r paths' js',
    LoadModuleTree fuel path paths js = Ok (r, paths', js') →
    paths' = paths ∧ rtc load_step js js' ∧
    match r with
    | Some m =>
        modules_ js' !! path = Some m ∧
        exception (isolate_ js') = exception (isolate_ js)
    | None => is_Some (exception (isolate_ js'))
    end.
Proof.
  induction fuel as [|fuel IH]; intros path paths js r paths' js'; [discriminate|].
  simpl. destruct (modules_ js !! path) as [m|] eqn:Hreg.
  { intros [= <- <- <-]. repeat split; [constructor|assumption]. }
  destruct (LoadModuleSource path paths js) as [source js1] eqn:Hsrc.
  apply LoadModuleSource_post in Hsrc as (Hsteps1 & (Hms & Hids & Hnext & Hcs) & Hsrc).
  destruct source as [source|].
  2:{ intros [= <- <- <-]. split; [reflexivity|]. split; [assumption|]. apply Hsrc. }
  destruct Hsrc as [Hsource He1].
  destruct (CompileModule source path paths js1) as [module js2] eqn:Hcomp.
  apply CompileModule_post in Hcomp.
  destruct module as [module|].
  2:{ destruct Hcomp as (_ & Hstep & He). intros [= <- <- <-].
      split; [reflexivity|]. split; [|assumption].
      etrans; [eassumption|]. apply rtc_once. assumption. }
  destruct Hcomp as (requests & Hcompile & -> & ->).
  unfold ASSERT. case_bool_decide as Hid; simpl; [|discriminate].
  set (module := mkModule _ path requests) in *.
  destruct (LoadModuleTree_requests _ _ _ _ _) as [[[completed paths2] js3]| |] eqn:Hloop;
    simpl; try discriminate.
  apply (LoadModuleTree_requests_post _ _ IH) in Hloop as (-> & Hsteps3 & Hloop).
  assert (Hfr1 : modules_ js1 !! path = None) by (rewrite Hms; assumption).
  assert (Hstep2 : load_step js1
            (register_module path module (with_isolate (add_compiled module) js1))).
  { apply step_register; assumption. }
  destruct completed; intros [= <- <- <-].
  - split; [reflexivity|]. split.
    + etrans; [eassumption|]. eapply rtc_l; eassumption.
    + split.
      * eapply rtc_load_step_mono; [eassumption|]. simpl. apply lookup_insert_eq.
      * rewrite Hloop. simpl. assumption.
  - split; [reflexivity|]. split; [|assumption].
    etrans; [eassumption|]. eapply rtc_l; eassumption.
Qed.

(** *** The registry invariant *)

Lemma registry_wf_new base_path h : registry_wf (Js_new W base_path h).
Proof.
  split; simpl; try (intros *; rewrite lookup_empty; discriminate).
  - intros m. rewrite lookup_empty. split; [intros H%elem_of_nil; contradiction|discriminate].
  - constructor.
Qed.

Lemma load_step_wf js js' : load_step js js' → registry_wf js → registry_wf js'.
Proof.
  intros Hstep Hwf.
  destruct Hstep as [js v|js path|js path requests module Hp Hid];
    [destruct Hwf; split; assumption..|].
  destruct Hwf as [Hpi Hip Hfresh Hname Hcomp Honce]. simpl in Hid.
  split; simpl.
  - intros p m. rewrite lookup_insert. case_decide as Hpp.
    + intros [= <-]. subst p. apply lookup_insert_eq.
    + intros Hm. rewrite lookup_insert_ne; [apply Hpi, Hm|].
      intros Heq. apply Hpi in Hm. rewrite <- Heq in Hm. simpl in Hm. congruence.
  - intros id p. rewrite lookup_insert. case_decide as Hidd.
    + intros [= <-]. exists module. rewrite lookup_insert_eq. split; [reflexivity|]. subst id. reflexivity.
    + intros Hidp. apply Hip in Hidp as (m & Hm & <-).
      exists m. split; [|reflexivity].
      rewrite lookup_insert_ne; [assumption|]. intros <-. congruence.
  - intros id p. rewrite lookup_insert. case_decide as Hidd.
    + intros _. subst id. lia.
    + intros Hidp%Hfresh. lia.
  - intros p m. rewrite lookup_insert. case_decide as Hpp.
    + intros [= <-]. subst p. reflexivity.
    + apply Hname.
  - intros m. rewrite elem_of_app, list_elem_of_singleton, lookup_insert.
    case_decide as Hpp.
    + split.
      * intros [Hin| ->]; [|reflexivity].
        apply Hcomp in Hin. rewrite <- Hpp in Hin. congruence.
      * intros [= ->]. right. reflexivity.
    + split.
      * intros [Hin| ->]; [apply Hcomp, Hin|]. simpl in Hpp. congruence.
      * intros Hm. left. apply Hcomp, Hm.
  - rewrite fmap_app. simpl. apply NoDup_app. split; [assumption|].
    split; [|apply NoDup_singleton].
    intros x Hx ->%list_elem_of_singleton.
    apply list_elem_of_fmap in Hx as (m & Hxm & Hin).
    apply Hcomp in Hin. rewrite <- Hxm in Hin. congruence.
Qed.

Lemma rtc_load_step_wf js js' :
  rtc load_step js js' → registry_wf js → registry_wf js'.
Proof. induction 1; eauto using load_step_wf. Qed.

(** The engine only ever appends to the list of modules it compiled. *)
Lemma rtc_load_step_compiled js js' :
  rtc load_step js js' →
  ∃ new, compiled (isolate_ js') = (compiled (isolate_ js) ++ new)%list.
Proof.
  induction 1 as [a|a b c Hab _ [new IH]].
  - exists []. rewrite app_nil_r. reflexivity.
  - rewrite IH. destruct Hab; simpl; eauto.
    eexists. rewrite <- app_assoc. reflexivity.
Qed.

(** *** Loading a module that is not registered yet *)

Lemma LoadModuleSource_some path paths js source :
  module_source W path = Some source →
  LoadModuleSource path paths js = (Some source, read_state path js).
Proof.
  unfold module_source, LoadModuleSource, read_state.
  case_bool_decide as Hc.
  { intros [= <-]. subst path. reflexivity. }
  case_bool_decide as Hw.
  { intros [= <-]. subst path. reflexivity. }
  case_bool_decide; [discriminate|].
  destruct (ReadFile W path); [|discriminate]. intros [= <-]. reflexivity.
Qed.

Lemma read_state_steps path js : rtc load_step js (read_state path js).
Proof.
  unfold read_state. case_bool_decide; [constructor|].
  apply rtc_once. constructor.
Qed.

Lemma read_state_registry path js :
  modules_ (read_state path js) = modules_ js ∧
  module_path_by_id_ (read_state path js) = module_path_by_id_ js ∧
  isolate_ (read_state path js) = isolate_ js.
Proof. unfold read_state. case_bool_decide; repeat split; reflexivity. Qed.

Lemma loaded_state_steps path requests js :
  registry_wf js → modules_ js !! path = None →
  rtc load_step js (loaded_state path requests js).
Proof.
  intros Hwf Hp. etrans; [apply (read_state_steps path)|].
  apply rtc_once. unfold loaded_state, next_module.
  destruct (read_state_registry path js) as (Hm & Hi & Hiso).
  rewrite <- Hiso. apply step_register; simpl.
  - rewrite Hm. assumption.
  - rewrite Hi, Hiso.
    destruct (module_path_by_id_ js !! next_script_id (isolate_ js)) as [p|] eqn:E;
      [|reflexivity].
    apply (wf_id_fresh _ Hwf) in E. lia.
Qed.

Lemma LoadModuleTree_fresh fuel path paths js source requests :
  registry_wf js →
  modules_ js !! path = None →
  module_source W path = Some source →
  v8_CompileModule W source path = inl requests →
  LoadModuleTree (S fuel) path paths js =
    '(completed, paths', js') ←
      LoadModuleTree_requests (LoadModuleTree fuel) (remove_filename W path)
        requests paths (loaded_state path requests js);
    if completed : bool
    then Ok (Some (next_module js path requests), paths', js')
    else Ok (None, paths', js').
Proof.
  intros Hwf Hp Hsrc Hcomp. simpl. rewrite Hp.
  rewrite (LoadModuleSource_some _ _ _ _ Hsrc).
  unfold CompileModule. rewrite Hcomp.
  assert (Hfree : module_path_by_id_ js !! next_script_id (isolate_ js) = None).
  { destruct (module_path_by_id_ js !! next_script_id (isolate_ js)) as [p|] eqn:E;
      [|reflexivity].
    apply (wf_id_fresh _ Hwf) in E. lia. }
  unfold ASSERT, loaded_state, next_module, read_state.
  case_bool_decide; simpl; rewrite bool_decide_eq_true_2 by exact Hfree;
    reflexivity.
Qed.

Lemma LoadModuleTree_cached fuel path paths js module :
  modules_ js !! path = Some module →
  LoadModuleTree (S fuel) path paths js = Ok (Some module, paths, js).
Proof. intros H. simpl. rewrite H. reflexivity. Qed.

Lemma LoadModuleTree_requests_nil rec dir paths js :
  LoadModuleTree_requests rec dir [] paths js = Ok (true, paths, js).
Proof. reflexivity. Qed.

Lemma LoadModuleTree_requests_invalid rec dir spec requests paths js :
  IsValidImport spec = false →
  LoadModuleTree_requests rec dir (spec :: requests) paths js
    = Ok (false, paths, ThrowError (MakeInvalidImportError spec) js).
Proof. intros H. simpl. rewrite H. reflexivity. Qed.

Lemma LoadModuleTree_requests_registered rec dir spec requests paths js :
  IsValidImport spec = true →
  is_Some (modules_ js !! resolve_in W dir spec) →
  LoadModuleTree_requests rec dir (spec :: requests) paths js
    = LoadModuleTree_requests rec dir requests paths js.
Proof.
  intros H [m Hm]. simpl. rewrite H. simpl.
  unfold resolve_in in Hm. rewrite Hm. reflexivity.
Qed.

Lemma LoadModuleTree_requests_unregistered rec dir spec requests paths js :
  IsValidImport spec = true →
  modules_ js !! resolve_in W dir spec = None →
  LoadModuleTree_requests rec dir (spec :: requests) paths js
    = '(sub, paths1, js1) ←
        rec (resolve_in W dir spec) (paths ++ [resolve_in W dir spec])%list js;
      if bool_decide (sub = None) then Ok (false, removelast paths1, js1)
      else LoadModuleTree_requests rec dir requests (removelast paths1) js1.
Proof.
  intros H Hm. simpl. rewrite H. simpl.
  unfold resolve_in in *. rewrite Hm. reflexivity.
Qed.

(** *** Termination on a finite import graph *)

Lemma size_unregistered_insert (U : gset string) (ms : gmap string Module)
    path module :
  path ∈ U → ms !! path = None →
  (size (U ∖ dom (<[path := module]> ms)) < size (U ∖ dom ms))%nat.
Proof.
  intros HU Hp%not_elem_of_dom. apply subset_size. rewrite dom_insert_L.
  split.
  - intros x [Hx Hn]%elem_of_difference. apply elem_of_difference.
    split; [assumption|]. intros Hd. apply Hn, elem_of_union. right. assumption.
  - intros Hsub. specialize (Hsub path).
    rewrite !elem_of_difference, elem_of_union, elem_of_singleton in Hsub.
    destruct Hsub as [_ Hn]; [split; assumption|]. apply Hn. left. reflexivity.
Qed.

Lemma size_unregistered_mono (U : gset string) (ms ms' : gmap string Module) :
  ms ⊆ ms' → (size (U ∖ dom ms') ≤ size (U ∖ dom ms))%nat.
Proof.
  intros Hsub%subseteq_dom. apply subseteq_size.
  apply difference_mono_l. exact Hsub.
Qed.

Lemma LoadModuleTree_requests_total (U : gset string) fuel
    (rec : string → list string → Js W →
           Res (option Module * list string * Js W)) path :
  import_closed W U → path ∈ U →
  (∀ path paths js,
     registry_wf js → path ∈ U →
     (size (U ∖ dom (modules_ js)) < fuel)%nat →
     ∃ r js', rec path paths js = Ok (r, paths, js') ∧ rtc load_step js js') →
  ∀ requests paths js,
    registry_wf js →
    (∀ spec, spec ∈ requests → IsValidImport spec = true →
             resolve_in W (remove_filename W path) spec ∈ U) →
    (size (U ∖ dom (modules_ js)) < fuel)%nat →
    ∃ completed js',
      LoadModuleTree_requests rec (remove_filename W path) requests paths js
        = Ok (completed, paths, js') ∧ rtc load_step js js'.
Proof.
  intros Hclosed HU Hrec requests.
  induction requests as [|spec requests IH]; intros paths js Hwf Hreq Hsize.
  - simpl. eexists _, _. split; [reflexivity|constructor].
  - simpl. destruct (IsValidImport spec) eqn:Hvalid; simpl.
    2:{ eexists _, _. split; [reflexivity|]. apply rtc_once. constructor. }
    assert (Hrest : ∀ s, s ∈ requests → IsValidImport s = true →
                         resolve_in W (remove_filename W path) s ∈ U).
    { intros s Hs. apply Hreq. apply elem_of_cons. right. assumption. }
    destruct (modules_ js !! _) as [m|] eqn:Hm; [apply IH; assumption|].
    edestruct (Hrec (lexically_normal W (path_div W (remove_filename W path) spec))
                 (paths ++ [lexically_normal W (path_div W (remove_filename W path) spec)])%list js)
      as (r & js1 & -> & Hsteps); [assumption| |assumption|].
    { apply (Hreq spec); [apply elem_of_cons; left; reflexivity|assumption]. }
    simpl. rewrite removelast_snoc.
    destruct r as [m|]; simpl.
    + destruct (IH paths js1) as (completed & js2 & -> & Hsteps2).
      * eapply rtc_load_step_wf; eassumption.
      * assumption.
      * eapply Nat.le_lt_trans; [|exact Hsize].
        apply size_unregistered_mono. apply rtc_load_step_subseteq, Hsteps.
      * eexists _, _. split; [reflexivity|]. etrans; eassumption.
    + eexists _, _. split; [reflexivity|assumption].
Qed.

Lemma LoadModuleTree_total (U : gset string) :
  import_closed W U →
  ∀ fuel path paths js,
    registry_wf js → path ∈ U →
    (size (U ∖ dom (modules_ js)) < fuel)%nat →
    ∃ r js',
      LoadModuleTree fuel path paths js = Ok (r, paths, js') ∧
      rtc load_step js js'.
Proof.
  intros Hclosed fuel.
  induction fuel as [|fuel IH]; intros path paths js Hwf HU Hsize; [lia|].
  destruct (modules_ js !! path) as [m|] eqn:Hp.
  { rewrite (LoadModuleTree_cached _ _ _ _ _ Hp).
    eexists _, _. split; [reflexivity|constructor]. }
  destruct (LoadModuleTree (S fuel) path paths js) as [[[r paths'] js']| |] eqn:Hload.
  - apply LoadModuleTree_post in Hload as Hpost. destruct Hpost as (-> & Hsteps & _).
    eauto.
  - exfalso. revert Hload. simpl. rewrite Hp.
    destruct (LoadModuleSource path paths js) as [[source|] js1] eqn:Hsrc; [|discriminate].
    apply LoadModuleSource_post in Hsrc as (Hsteps1 & (Hms & Hids & Hnext & Hcs) & Hsource & _).
    destruct (CompileModule source path paths js1) as [[module|] js2] eqn:Hcomp; [|discriminate].
    apply CompileModule_post in Hcomp as (requests & Hcompile & -> & ->).
    unfold ASSERT. rewrite bool_decide_eq_true_2.
    2:{ simpl. rewrite Hids, Hnext.
        destruct (module_path_by_id_ js !! next_script_id (isolate_ js)) as [p|] eqn:E;
          [|reflexivity].
        apply (wf_id_fresh _ Hwf) in E. lia. }
    simpl.
    edestruct (LoadModuleTree_requests_total U fuel (LoadModuleTree fuel) path
                 Hclosed HU IH requests paths) as (c & js3 & -> & _).
    + eapply load_step_wf; [|eapply rtc_load_step_wf; eassumption].
      apply step_register; simpl; [rewrite Hms; assumption|].
      rewrite Hids, Hnext.
      destruct (module_path_by_id_ js !! next_script_id (isolate_ js)) as [p|] eqn:E;
        [|reflexivity].
      apply (wf_id_fresh _ Hwf) in E. lia.
    + intros spec Hspec Hvalid. apply (Hclosed path); [assumption|].
      unfold import_targets, static_imports. rewrite Hsource, Hcompile.
      apply list_elem_of_fmap. exists spec. split; [reflexivity|].
      apply list_elem_of_filter. split; assumption.
    + simpl. rewrite Hms.
      pose proof (size_unregistered_insert U (modules_ js) path
                    (mkModule (next_script_id (isolate_ js1)) path requests) HU Hp).
      lia.
    + simpl. destruct c; discriminate.
  - exfalso. revert Hload. simpl. rewrite Hp.
    destruct (LoadModuleSource path paths js) as [[source|] js1] eqn:Hsrc; [|discriminate].
    apply LoadModuleSource_post in Hsrc as (Hsteps1 & (Hms & Hids & Hnext & Hcs) & Hsource & _).
    destruct (CompileModule source path paths js1) as [[module|] js2] eqn:Hcomp; [|discriminate].
    apply CompileModule_post in Hcomp as (requests & Hcompile & -> & ->).
    unfold ASSERT. case_bool_decide; simpl; [|discriminate].
    edestruct (LoadModuleTree_requests_total U fuel (LoadModuleTree fuel) path
                 Hclosed HU IH requests paths) as (c & js3 & -> & _).
    + eapply load_step_wf; [|eapply rtc_load_step_wf; eassumption].
      apply step_register; simpl; [rewrite Hms; assumption|assumption].
    + intros spec Hspec Hvalid. apply (Hclosed path); [assumption|].
      unfold import_targets, static_imports. rewrite Hsource, Hcompile.
      apply list_elem_of_fmap. exists spec. split; [reflexivity|].
      apply list_elem_of_filter. split; assumption.
    + simpl. rewrite Hms.
      pose proof (size_unregistered_insert U (modules_ js) path
                    (mkModule (next_script_id (isolate_ js1)) path requests) HU Hp).
      lia.
    + simpl. destruct c; discriminate.
Qed.

Lemma loaded_state_registry path requests js :
  modules_ (loaded_state path requests js)
    = <[path := next_module js path requests]> (modules_ js) ∧
  module_path_by_id_ (loaded_state path requests js)
    = <[next_script_id (isolate_ js) := path]> (module_path_by_id_ js) ∧
  compiled (isolate_ (loaded_state path requests js))
    = (compiled (isolate_ js) ++ [next_module js path requests])%list ∧
  next_script_id (isolate_ (loaded_state path requests js))
    = (next_script_id (isolate_ js) + 1)%Z ∧
  exception (isolate_ (loaded_state path requests js))
    = exception (isolate_ js).
Proof.
  unfold loaded_state, read_state. case_bool_decide; repeat split; reflexivity.
Qed.

Lemma loaded_state_wf path requests js :
  registry_wf js → modules_ js !! path = None →
  registry_wf (loaded_state path requests js).
Proof.
  intros Hwf Hp. eapply rtc_load_step_wf; [|exact Hwf].
  apply loaded_state_steps; assumption.
Qed.

(** C1.  A path is compiled and registered at most once.  In a session whose
    registry is well formed: a load of a registered path returns the
    registered record and leaves the whole session, the engine included, as
    it was; an import edge to a registered path is skipped without a call of
    the loader; and any load keeps the registry well formed (the
    path-to-record and identifier-to-path indexes agree), keeps every record
    it found, and compiles only paths that were not registered, each once,
    registering each of them. *)
Theorem LoadModuleTree_registers_once fuel path paths js :
  registry_wf js →
  (∀ module, modules_ js !! path = Some module →
     LoadModuleTree (S fuel) path paths js = Ok (Some module, paths, js)) ∧
  (∀ rec dir spec requests,
     IsValidImport spec = true →
     is_Some (modules_ js !! resolve_in W dir spec) →
     LoadModuleTree_requests rec dir (spec :: requests) paths js
       = LoadModuleTree_requests rec dir requests paths js) ∧
  (∀ r paths' js',
     LoadModuleTree fuel path paths js = Ok (r, paths', js') →
     registry_wf js' ∧
     modules_ js ⊆ modules_ js' ∧
     module_path_by_id_ js ⊆ module_path_by_id_ js' ∧
     ∃ new,
       compiled (isolate_ js') = (compiled (isolate_ js) ++ new)%list ∧
       NoDup (ResourceName <$> new) ∧
       ∀ m, m ∈ new →
            modules_ js !! ResourceName m = None ∧
            modules_ js' !! ResourceName m = Some m ∧
            module_path_by_id_ js' !! ScriptId m = Some (ResourceName m)).
Proof.
  intros Hwf. split; [|split].
  - intros module Hm. apply LoadModuleTree_cached, Hm.
  - intros rec dir spec requests Hvalid [m Hm]. simpl. rewrite Hvalid. simpl.
    unfold resolve_in in Hm. rewrite Hm. reflexivity.
  - intros r paths' js' Hload.
    apply LoadModuleTree_post in Hload as (_ & Hsteps & _).
    pose proof (rtc_load_step_wf _ _ Hsteps Hwf) as Hwf'.
    destruct (rtc_load_step_subseteq _ _ Hsteps) as [Hms Hids].
    destruct (rtc_load_step_compiled _ _ Hsteps) as [new Hnew].
    split; [assumption|]. split; [assumption|]. split; [assumption|].
    exists new. split; [assumption|].
    pose proof (wf_once _ Hwf') as Honce. rewrite Hnew, fmap_app in Honce.
    apply NoDup_app in Honce as (_ & Hdisj & Hnodup).
    split; [assumption|]. intros m Hin.
    assert (Hreg : modules_ js' !! ResourceName m = Some m).
    { apply (wf_compiled _ Hwf'). rewrite Hnew. apply elem_of_app. right. assumption. }
    split; [|split; [assumption|]].
    + destruct (modules_ js !! ResourceName m) as [m0|] eqn:E; [|reflexivity].
      exfalso. apply (Hdisj (ResourceName m)).
      * apply list_elem_of_fmap. exists m0. split.
        -- symmetry. apply (wf_name _ Hwf _ _ E).
        -- apply (wf_compiled _ Hwf). rewrite (wf_name _ Hwf _ _ E). assumption.
      * apply list_elem_of_fmap. exists m. split; [reflexivity|assumption].
    + apply (wf_path_id _ Hwf'), Hreg.
Qed.

(** C9.  A load that fails leaves in the registry what it found and what it
    registered.  Whatever a load returns, the session it leaves is reached
    by reads, throws and registrations only; none of these removes or
    changes an entry of [modules_] or [module_path_by_id_], so every entry
    present at any point of the load is present at its end; and the record
    compiled for the requested path itself is registered under its path and
    its script identifier even when a dependency made the load fail. *)
Theorem LoadModuleTree_failure_keeps_registry fuel path paths js r paths' js' :
  LoadModuleTree fuel path paths js = Ok (r, paths', js') →
  rtc load_step js js' ∧
  (∀ mid, rtc load_step js mid → rtc load_step mid js' →
     modules_ mid ⊆ modules_ js' ∧
     module_path_by_id_ mid ⊆ module_path_by_id_ js') ∧
  (∀ source requests,
     registry_wf js →
     modules_ js !! path = None →
     module_source W path = Some source →
     v8_CompileModule W source path = inl requests →
     modules_ js' !! path = Some (next_module js path requests) ∧
     module_path_by_id_ js' !! next_script_id (isolate_ js) = Some path).
Proof.
  intros Hload.
  pose proof (LoadModuleTree_post _ _ _ _ _ _ _ Hload) as (_ & Hsteps & _).
  split; [assumption|]. split.
  - intros mid _ Hmid. apply rtc_load_step_subseteq, Hmid.
  - intros source requests Hwf Hp Hsrc Hcomp.
    destruct fuel as [|fuel]; [discriminate|].
    rewrite (LoadModuleTree_fresh _ _ _ _ _ _ Hwf Hp Hsrc Hcomp) in Hload.
    destruct (LoadModuleTree_requests _ _ _ _ _)
      as [[[completed paths1] js1]| |] eqn:Hloop; simpl in Hload; try discriminate.
    assert (js1 = js') as -> by (destruct completed; congruence).
    apply (LoadModuleTree_requests_post _ _ (LoadModuleTree_post fuel)) in Hloop
      as (_ & Hsteps' & _).
    apply rtc_load_step_subseteq in Hsteps' as [Hms Hids].
    destruct (loaded_state_registry path requests js) as (Em & Ei & _).
    split.
    + eapply lookup_weaken; [|exact Hms]. rewrite Em. apply lookup_insert_eq.
    + eapply lookup_weaken; [|exact Hids]. rewrite Ei. apply lookup_insert_eq.
Qed.

(** C2.  The depth-first load terminates on every finite import graph,
    cycles included.  First part: when the requested path lies in a finite
    set [U] of paths that the import edges do not leave, any fuel above the
    size of [U] makes the load return (a record or a failure, never an
    assertion failure), with the load stack as it was and a registry that is
    still well formed, hence with no path compiled twice.  Second part: for
    two distinct unregistered modules [a] and [b] that import each other and
    nothing else, the load of [a] succeeds with two levels of recursion; it
    returns the record of [a] and leaves exactly [a] and [b] added to the
    registry, each compiled once, [a] registered before [b] is visited. *)
Theorem LoadModuleTree_terminates :
  (∀ (U : gset string) fuel path paths js,
     import_closed W U → registry_wf js → path ∈ U → (size U < fuel)%nat →
     ∃ r js',
       LoadModuleTree fuel path paths js = Ok (r, paths, js') ∧
       registry_wf js') ∧
  (∀ a b sa sb fuel paths js,
     registry_wf js → a ≠ b →
     modules_ js !! a = None → modules_ js !! b = None →
     imports_only W a sa b → imports_only W b sb a →
     let js_a := loaded_state a [sa] js in
     let js_ab := loaded_state b [sb] js_a in
     let module_a := next_module js a [sa] in
     let module_b := next_module js_a b [sb] in
     LoadModuleTree (S (S fuel)) a paths js = Ok (Some module_a, paths, js_ab) ∧
     modules_ js_ab = <[b := module_b]> (<[a := module_a]> (modules_ js)) ∧
     compiled (isolate_ js_ab)
       = (compiled (isolate_ js) ++ [module_a; module_b])%list ∧
     exception (isolate_ js_ab) = exception (isolate_ js)).
Proof.
  split.
  - intros U fuel path paths js Hclosed Hwf HU Hfuel.
    destruct (LoadModuleTree_total U Hclosed fuel path paths js Hwf HU)
      as (r & js' & Hload & Hsteps).
    { eapply Nat.le_lt_trans; [|exact Hfuel].
      apply subseteq_size. intros x [Hx _]%elem_of_difference. exact Hx. }
    exists r, js'. split; [assumption|]. eapply rtc_load_step_wf; eassumption.
  - intros a b sa sb fuel paths js Hwf Hab Ha Hb
      (src_a & Hsrc_a & Hcomp_a & Hvalid_a & Hres_a)
      (src_b & Hsrc_b & Hcomp_b & Hvalid_b & Hres_b).
    cbv zeta.
    destruct (loaded_state_registry a [sa] js) as (Ema & Eia & Eca & Ena & Eea).
    destruct (loaded_state_registry b [sb] (loaded_state a [sa] js))
      as (Emb & Eib & Ecb & Enb & Eeb).
    assert (Hwf_a : registry_wf (loaded_state a [sa] js))
      by (apply loaded_state_wf; assumption).
    assert (Hb_a : modules_ (loaded_state a [sa] js) !! b = None).
    { rewrite Ema, lookup_insert_ne; assumption. }
    split; [|split; [|split]].
    + rewrite (LoadModuleTree_fresh _ _ _ _ _ _ Hwf Ha Hsrc_a Hcomp_a).
      rewrite LoadModuleTree_requests_unregistered;
        [|assumption|rewrite Hres_a; assumption].
      rewrite Hres_a.
      rewrite (LoadModuleTree_fresh _ _ _ _ _ _ Hwf_a Hb_a Hsrc_b Hcomp_b).
      rewrite LoadModuleTree_requests_registered; [|assumption|].
      2:{ rewrite Hres_b, Emb, lookup_insert_ne by congruence.
          rewrite Ema, lookup_insert_eq. eauto. }
      rewrite LoadModuleTree_requests_nil. res_simpl.
      rewrite removelast_snoc, LoadModuleTree_requests_nil. reflexivity.
    + rewrite Emb, Ema. reflexivity.
    + rewrite Ecb, Eca, <- app_assoc. reflexivity.
    + rewrite Eeb, Eea. reflexivity.
Qed.

End Loader.

(** ** Sources and diagnostics *)

Section Diagnostics.

Context (W : World).

Implicit Types (js : Js W) (path dir spec : string) (paths : list string).

#[local] Arguments loaded_state : simpl never.
#[local] Arguments next_module : simpl never.
#[local] Arguments read_state : simpl never.

Lemma string_app_assoc (a b c : string) : a +:+ b +:+ c = (a +:+ b) +:+ c.
Proof.
  induction a as [|x a IH]; [reflexivity|].
  change (String x (a +:+ b +:+ c) = String x ((a +:+ b) +:+ c)).
  f_equal. exact IH.
Qed.

Lemma string_app_nil_r (a : string) : a +:+ EmptyString = a.
Proof.
  induction a as [|x a IH]; [reflexivity|].
  change (String x (a +:+ EmptyString) = String x a). f_equal. exact IH.
Qed.

Lemma AppendModulePath_from_take base paths n :
  (n ≤ length paths)%nat →
  AppendModulePath_from W base paths n
    = concat_lines (from_line W base <$> rev (take n paths)).
Proof.
  induction n as [|i IH]; intros Hn.
  - reflexivity.
  - simpl AppendModulePath_from. rewrite IH by lia.
    destruct (lookup_lt_is_Some_2 paths i) as [x Hx]; [lia|].
    rewrite (take_S_r _ _ _ Hx), rev_app_distr. simpl.
    rewrite (nth_lookup_Some _ _ _ _ Hx). unfold from_line.
    rewrite <- !string_app_assoc. reflexivity.
Qed.

Lemma AppendModulePath_snoc base outer inner :
  AppendModulePath W base (outer ++ [inner])
    = loading_line W base inner +:+
      concat_lines (from_line W base <$> rev outer).
Proof.
  unfold AppendModulePath.
  destruct (outer ++ [inner])%list as [|x l] eqn:E.
  { destruct outer; discriminate. }
  rewrite <- E. clear E x l.
  rewrite length_app. simpl. replace (length outer + 1 - 1)%nat with (length outer) by lia.
  rewrite AppendModulePath_from_take by (rewrite length_app; simpl; lia).
  rewrite take_app_length.
  rewrite app_nth2 by lia. rewrite Nat.sub_diag. simpl.
  unfold loading_line. rewrite <- !string_app_assoc. reflexivity.
Qed.

Lemma LoadModuleSource_unreadable path paths js error :
  substr0 2 path ≠ "--" →
  ReadFile W path = inr error →
  LoadModuleSource path paths js
    = (None,
       ThrowError (error +:+ nl +:+ AppendModulePath W (base_path_ js) paths)
         (log_read path js)).
Proof.
  intros Hv Hr. unfold LoadModuleSource.
  rewrite bool_decide_eq_false_2 by (intros ->; apply Hv; reflexivity).
  rewrite bool_decide_eq_false_2 by (intros ->; apply Hv; reflexivity).
  rewrite bool_decide_eq_false_2 by assumption.
  rewrite Hr. reflexivity.
Qed.

(** C7.  The two virtual modules load their embedded, decompressed source
    whatever the session (its base path included) and leave the session,
    hence the trace of file reads, untouched; a main-module name that begins
    with [--] is handed to the loader as it is, without the base path; and
    any other path beginning with [--] fails with the error
    [Invalid module name: <path>] while the trace of file reads stays as it
    was. *)
Theorem LoadModuleSource_virtual paths js :
  LoadModuleSource "--console" paths js
    = (Some (GzipUncompress W (kEmbeddedConsoleSource W)), js) ∧
  LoadModuleSource "--welcome" paths js
    = (Some (GzipUncompress W (kEmbeddedWelcomeSource W)), js) ∧
  (∀ name, substr0 2 name = "--" → main_module_path js name = name) ∧
  (∀ path,
     substr0 2 path = "--" → path ≠ "--console" → path ≠ "--welcome" →
     ∃ js',
       LoadModuleSource path paths js = (None, js') ∧
       js' = ThrowError ("Invalid module name: " +:+ path) js ∧
       exception (isolate_ js')
         = Some (v8_Error ("Invalid module name: " +:+ path)) ∧
       files_read js' = files_read js).
Proof.
  split; [reflexivity|]. split; [reflexivity|]. split.
  - intros name H. unfold main_module_path.
    rewrite bool_decide_eq_true_2 by assumption. reflexivity.
  - intros path Hv Hc Hw. eexists. split; [|repeat split].
    unfold LoadModuleSource.
    rewrite (bool_decide_eq_false_2 _ Hc), (bool_decide_eq_false_2 _ Hw).
    rewrite bool_decide_eq_true_2 by assumption. reflexivity.
Qed.

Lemma LoadModuleSource_failure path outer js js' :
  LoadModuleSource path (outer ++ [path]) js = (None, js') →
  failed_at (outer ++ [path]) js'.
Proof.
  unfold LoadModuleSource. repeat case_bool_decide; try discriminate.
  - intros [= <-]. exists [], outer, path. eexists.
    split; [rewrite app_nil_r; reflexivity|]. split; [reflexivity|].
    right. right. left. split; [assumption|reflexivity].
  - destruct (ReadFile W path) as [content|error] eqn:Hread; [discriminate|].
    intros [= <-]. exists [], outer, path. eexists.
    split; [rewrite app_nil_r; reflexivity|]. split; [reflexivity|].
    left. exists error. split; [assumption|]. split; [assumption|].
    simpl. rewrite AppendModulePath_snoc. reflexivity.
Qed.

Lemma CompileModule_failure source path outer js js' :
  module_source W path = Some source →
  CompileModule source path (outer ++ [path]) js = (None, js') →
  failed_at (outer ++ [path]) js'.
Proof.
  intros Hsrc. unfold CompileModule.
  destruct (v8_CompileModule W source path) as [requests|e] eqn:Hc; [discriminate|].
  intros [= <-]. exists [], outer, path. eexists.
  split; [rewrite app_nil_r; reflexivity|]. split; [reflexivity|].
  right. left. exists source, e. split; [assumption|]. split; [assumption|].
  simpl. rewrite AppendModulePath_snoc. reflexivity.
Qed.

Lemma failed_at_deeper outer path sub js' :
  failed_at ((outer ++ [path]) ++ [sub]) js' → failed_at (outer ++ [path]) js'.
Proof.
  intros (more & outer' & inner & caught & Hstack & Hcaught & Hfail).
  exists (sub :: more), outer', inner, caught.
  split; [|split; assumption].
  rewrite Hstack, <- app_assoc. reflexivity.
Qed.

Lemma LoadModuleTree_requests_failure fuel
    (IH : ∀ path outer js paths' js',
        LoadModuleTree fuel path (outer ++ [path]) js = Ok (None, paths', js') →
        failed_at (outer ++ [path]) js') dir requests :
  ∀ path outer js paths' js',
    LoadModuleTree_requests (LoadModuleTree fuel) dir requests (outer ++ [path]) js
      = Ok (false, paths', js') →
    failed_at (outer ++ [path]) js'.
Proof.
  induction requests as [|spec requests IHr]; intros path outer js paths' js';
    [discriminate|].
  simpl. destruct (IsValidImport spec) eqn:Hvalid; simpl.
  2:{ intros [= <- <-]. exists [], outer, path. eexists.
      split; [rewrite app_nil_r; reflexivity|]. split; [reflexivity|].
      right. right. right. exists spec. split; [assumption|reflexivity]. }
  destruct (modules_ js !! _) as [m|]; [apply IHr|].
  destruct (LoadModuleTree fuel _ _ js) as [[[sub paths1] js1]| |] eqn:Hsub;
    try discriminate.
  res_simpl. destruct sub as [m|]; simpl.
  - pose proof (LoadModuleTree_post W _ _ _ _ _ _ _ Hsub) as (-> & _).
    rewrite removelast_snoc. apply IHr.
  - intros [= <- <-].
    apply (failed_at_deeper outer path (lexically_normal W (path_div W dir spec))).
    exact (IH _ (outer ++ [path])%list _ _ _ Hsub).
Qed.

Lemma LoadModuleTree_failure fuel :
  ∀ path outer js paths' js',
    LoadModuleTree fuel path (outer ++ [path]) js = Ok (None, paths', js') →
    failed_at (outer ++ [path]) js'.
Proof.
  induction fuel as [|fuel IH]; intros path outer js paths' js'; [discriminate|].
  simpl. destruct (modules_ js !! path) as [m|]; [discriminate|].
  destruct (LoadModuleSource path _ js) as [[source|] js1] eqn:Hsrc.
  2:{ intros [= <- <-]. apply LoadModuleSource_failure in Hsrc. exact Hsrc. }
  pose proof (LoadModuleSource_post W _ _ _ _ _ Hsrc) as (_ & _ & Hms & _).
  destruct (CompileModule source path _ js1) as [[module|] js2] eqn:Hcomp.
  2:{ intros [= <- <-]. eapply CompileModule_failure; eassumption. }
  destruct (ASSERT _) as [[]| |]; try discriminate. res_simpl.
  destruct (LoadModuleTree_requests _ _ _ _ _)
    as [[[completed paths1] js3]| |] eqn:Hloop; try discriminate.
  res_simpl. destruct completed; [discriminate|].
  intros [= <- <-].
  exact (LoadModuleTree_requests_failure fuel IH _ _ _ _ _ _ _ Hloop).
Qed.


End Diagnostics.

(** ** Promises and the dynamic import scheduler *)

Section Scheduler.

Context (W : World).

Implicit Types (js : Js W) (path dir spec ref : string) (paths : list string).

Lemma call_delegate_list_nil js : call_delegate_list [] js = js.
Proof. destruct js. unfold call_delegate_list. simpl. rewrite app_nil_r. reflexivity. Qed.

Lemma call_delegate_list_app l1 l2 js :
  call_delegate_list l2 (call_delegate_list l1 js)
    = call_delegate_list (l1 ++ l2) js.
Proof. unfold call_delegate_list. simpl. rewrite app_assoc. reflexivity. Qed.

Lemma OnModuleFailure_calls info js :
  OnModuleFailure info js = call_delegate_list (failure_calls info) js.
Proof.
  destruct info as [|error info]; simpl.
  - symmetry. apply call_delegate_list_nil.
  - reflexivity.
Qed.

Lemma run_callback_calls cb info js :
  run_callback cb info js = call_delegate_list (callback_calls cb info) js.
Proof.
  destruct cb; simpl.
  - reflexivity.
  - unfold OnMainModuleFailure. rewrite OnModuleFailure_calls.
    apply (call_delegate_list_app _ [OnMainModuleLoaded]).
  - apply OnModuleFailure_calls.
Qed.

Lemma run_reactions_calls p s rs :
  ∀ js, run_reactions p s rs js = call_delegate_list (reaction_calls p s rs) js.
Proof.
  induction rs as [|r rs IH]; intros js.
  - symmetry. apply call_delegate_list_nil.
  - simpl. rewrite IH. case_bool_decide.
    + destruct s as [|v|v].
      * rewrite <- (call_delegate_list_nil js) at 1.
        apply call_delegate_list_app.
      * destruct (on_fulfilled r) as [cb|].
        -- rewrite run_callback_calls. apply call_delegate_list_app.
        -- rewrite <- (call_delegate_list_nil js) at 1.
           apply call_delegate_list_app.
      * destruct (on_rejected r) as [cb|].
        -- rewrite run_callback_calls. apply call_delegate_list_app.
        -- rewrite <- (call_delegate_list_nil js) at 1.
           apply call_delegate_list_app.
    + rewrite <- (call_delegate_list_nil js) at 1.
      apply call_delegate_list_app.
Qed.

Lemma request_frame_refl js : request_frame js js.
Proof.
  repeat split; try reflexivity. exists []. rewrite app_nil_r. reflexivity.
Qed.

Lemma request_frame_trans js1 js2 js3 :
  request_frame js1 js2 → request_frame js2 js3 → request_frame js1 js3.
Proof.
  intros (? & ? & ? & ? & ? & ? & ? & ? & ? & l1 & ?)
         (? & ? & ? & ? & ? & ? & ? & ? & ? & l2 & ?).
  repeat split; try congruence.
  exists (l1 ++ l2)%list. rewrite app_assoc. congruence.
Qed.

Lemma Promise_Settle_pending p s js :
  Promise_State p js = kPending →
  Promise_Settle p s js
    = call_delegate_list (reaction_calls p s (reactions (isolate_ js)))
        (with_isolate
           (set_promises (next_promise (isolate_ js))
              (<[p := s]> (promises (isolate_ js)))) js).
Proof.
  intros H. unfold Promise_Settle. rewrite H. apply run_reactions_calls.
Qed.

Lemma Promise_Settle_settled p s js :
  Promise_State p js ≠ kPending → Promise_Settle p s js = js.
Proof.
  intros H. unfold Promise_Settle.
  destruct (Promise_State p js); [contradiction|reflexivity..].
Qed.

(** Settling a promise touches that promise and the delegate only. *)
Lemma Promise_Settle_frame p s js :
  request_frame js (Promise_Settle p s js) ∧
  suppress_next_script_result_ (Promise_Settle p s js)
    = suppress_next_script_result_ js ∧
  task_queue_ (Promise_Settle p s js) = task_queue_ js ∧
  dynamic_imports_ (Promise_Settle p s js) = dynamic_imports_ js ∧
  next_promise (isolate_ (Promise_Settle p s js)) = next_promise (isolate_ js) ∧
  Promise_State p (Promise_Settle p s js)
    = match Promise_State p js with kPending => s | st => st end ∧
  ∀ q, q ≠ p →
       Promise_State q (Promise_Settle p s js) = Promise_State q js.
Proof.
  destruct (Promise_State p js) eqn:E.
  - rewrite (Promise_Settle_pending _ _ _ E).
    split; [repeat split; try reflexivity; eauto|].
    repeat split; try reflexivity.
    + unfold Promise_State. simpl. rewrite lookup_insert_eq. reflexivity.
    + intros q Hq. unfold Promise_State. simpl.
      rewrite lookup_insert_ne by congruence. reflexivity.
  - rewrite Promise_Settle_settled by congruence.
    split; [apply request_frame_refl|]. repeat split; try reflexivity. assumption.
  - rewrite Promise_Settle_settled by congruence.
    split; [apply request_frame_refl|]. repeat split; try reflexivity. assumption.
Qed.

(** The session once [Resolver::New] made the promise of a request. *)
Lemma Promise_New_frame s js :
  let js' := (Promise_New s js).2 in
  (Promise_New s js).1 = next_promise (isolate_ js) ∧
  request_frame js js' ∧
  delegate_ js' = delegate_ js ∧
  suppress_next_script_result_ js' = suppress_next_script_result_ js ∧
  task_queue_ js' = task_queue_ js ∧
  dynamic_imports_ js' = dynamic_imports_ js ∧
  next_promise (isolate_ js') = S (next_promise (isolate_ js)) ∧
  Promise_State (next_promise (isolate_ js)) js' = s.
Proof.
  simpl. split; [reflexivity|]. split.
  { repeat split; try reflexivity. exists []. simpl. rewrite app_nil_r. reflexivity. }
  repeat split; try reflexivity.
  unfold Promise_State. simpl. rewrite lookup_insert_eq. reflexivity.
Qed.

(** [ImportDynamic], case by case. *)
Lemma ImportDynamic_cases ref spec js :
  let p := next_promise (isolate_ js) in
  let js1 := (Promise_New kPending js).2 in
  ImportDynamic ref spec js =
    if IsValidImport spec then
      match referrer_dir js ref with
      | None => AssertFailed
      | Some dir =>
          let path_str := resolve_in W dir spec in
          match dynamic_imports_ js !! path_str with
          | Some it => Ok (Some it, js1)
          | None =>
              Ok (Some p,
                  set_task_queue
                    (task_queue_ js ++ [TaskImportDynamic path_str])%list
                    (set_dynamic_imports
                       (<[path_str := p]> (dynamic_imports_ js)) js1))
          end
      end
    else
      Ok (Some p,
          Promise_Settle p (kRejected (VString (MakeInvalidImportError spec)))
            js1).
Proof.
  unfold ImportDynamic, Resolver_New, referrer_dir. simpl.
  destruct (IsValidImport spec); simpl; [|reflexivity].
  case_bool_decide; simpl; [reflexivity|].
  unfold ASSERT. case_bool_decide; simpl; reflexivity.
Qed.

Lemma ImportDynamic_frame ref spec js r js' :
  ImportDynamic ref spec js = Ok (r, js') →
  request_frame js js' ∧
  suppress_next_script_result_ js' = suppress_next_script_result_ js.
Proof.
  rewrite ImportDynamic_cases.
  destruct (Promise_New_frame kPending js) as (_ & Hf & _ & Hs & _).
  destruct (IsValidImport spec).
  - destruct (referrer_dir js ref) as [dir|]; [|discriminate]. cbv zeta.
    destruct (dynamic_imports_ js !! resolve_in W dir spec) as [it|];
      intros [= <- <-].
    + split; assumption.
    + split; [exact Hf|exact Hs].
  - intros [= <- <-].
    destruct (Promise_Settle_frame (next_promise (isolate_ js))
                (kRejected (VString (MakeInvalidImportError spec)))
                (Promise_New kPending js).2) as (Hf' & Hs' & _).
    split; [exact (request_frame_trans _ _ _ Hf Hf')|].
    etrans; [exact Hs'|exact Hs].
Qed.

Lemma task_paths_app q1 q2 :
  task_paths (q1 ++ q2) = (task_paths q1 ++ task_paths q2)%list.
Proof. apply fmap_app. Qed.

Lemma ImportDynamic_pending_wf ref spec js r js' :
  pending_wf js → ImportDynamic ref spec js = Ok (r, js') → pending_wf js'.
Proof.
  intros [Hnd Hiff]. rewrite ImportDynamic_cases.
  destruct (IsValidImport spec).
  - destruct (referrer_dir js ref) as [dir|]; [|discriminate]. cbv zeta.
    destruct (dynamic_imports_ js !! resolve_in W dir spec) as [it|] eqn:E;
      intros [= <- <-].
    + split; assumption.
    + split; simpl.
      * rewrite task_paths_app. apply NoDup_app. split; [assumption|].
        split; [|apply NoDup_singleton].
        intros x Hx ->%list_elem_of_singleton.
        apply Hiff in Hx. rewrite E in Hx. destruct Hx; discriminate.
      * intros x. rewrite task_paths_app, elem_of_app. simpl.
        rewrite list_elem_of_singleton, lookup_insert.
        case_decide as Hx.
        -- subst x. split; [eauto|]. intros _. right. reflexivity.
        -- rewrite Hiff. split; [intros [H|H]; [assumption|congruence]|auto].
  - intros [= <- <-].
    destruct (Promise_Settle_frame (next_promise (isolate_ js))
                (kRejected (VString (MakeInvalidImportError spec)))
                (Promise_New kPending js).2) as (_ & _ & Hq & Hd & _).
    unfold pending_wf.
    change (Promise_New kPending js).2 with
      (with_isolate
         (set_promises (S (next_promise (isolate_ js)))
            (<[next_promise (isolate_ js):=kPending]> (promises (isolate_ js))))
         js) in Hq, Hd.
    rewrite Hq, Hd. split; assumption.
Qed.

(** The host calls of running script code keep the registry and the engine's
    modules; they can only set the suppression flag, never clear it. *)
Lemma run_host_calls_frame calls :
  ∀ js js',
    run_host_calls calls js = Ok js' →
    request_frame js js' ∧
    (suppress_next_script_result_ js = true →
     suppress_next_script_result_ js' = true) ∧
    (pending_wf js → pending_wf js').
Proof.
  induction calls as [|[referrer specifier|] calls IH]; intros js js'.
  - intros [= <-]. split; [apply request_frame_refl|]. split; auto.
  - simpl. destruct (ImportDynamic referrer specifier js) as [[r js1]| |] eqn:E;
      simpl; try discriminate.
    intros H. apply IH in H as (Hf & Hs & Hp).
    pose proof (ImportDynamic_frame _ _ _ _ _ E) as [Hf1 Hs1].
    split; [eapply request_frame_trans; eassumption|].
    split.
    + intros Hjs. apply Hs. congruence.
    + intros Hjs. apply Hp. eapply ImportDynamic_pending_wf; eassumption.
  - simpl. intros H. apply IH in H as (Hf & Hs & Hp).
    split; [|split].
    + exact (request_frame_trans js js js' (request_frame_refl js) Hf).
    + intros _. apply Hs. reflexivity.
    + intros Hjs. apply Hp. exact Hjs.
Qed.

End Scheduler.

(** ** Activation, the deferred task and inline scripts *)

Section Activation.

Context (W : World).

Implicit Types (js : Js W) (path dir spec ref : string) (paths : list string).

Lemma pending_wf_ext js js' :
  task_queue_ js' = task_queue_ js →
  dynamic_imports_ js' = dynamic_imports_ js →
  pending_wf js → pending_wf js'.
Proof. unfold pending_wf. intros -> ->. auto. Qed.

Lemma reaction_calls_app p s rs1 rs2 :
  reaction_calls p s (rs1 ++ rs2)
    = (reaction_calls p s rs1 ++ reaction_calls p s rs2)%list.
Proof.
  induction rs1 as [|r rs1 IH]; [reflexivity|].
  simpl. rewrite IH, app_assoc. reflexivity.
Qed.

(** A main-module continuation that is attached runs when its promise
    settles. *)
Lemma main_reaction_calls p s rs :
  main_reaction p ∈ rs →
  ∃ pre post,
    reaction_calls p s rs
      = (pre ++
         match s with
         | kPending => []
         | kFulfilled _ => [OnMainModuleLoaded]
         | kRejected v =>
             [OnJavascriptException (ToString v) []; OnMainModuleLoaded]
         end ++ post)%list.
Proof.
  intros (rs1 & rs2 & ->)%list_elem_of_split.
  exists (reaction_calls p s rs1), (reaction_calls p s rs2).
  rewrite reaction_calls_app. f_equal. simpl.
  rewrite bool_decide_eq_true_2 by reflexivity.
  destruct s; reflexivity.
Qed.

(** What [LoadModuleByPath] guarantees to its callers. *)
Lemma LoadModuleByPath_post fuel path is_main js r js' :
  LoadModuleByPath fuel path is_main js = Ok (r, js') →
  (pending_wf js → pending_wf js') ∧
  (∃ calls, delegate_ js' = (delegate_ js ++ calls)%list) ∧
  match r with
  | None => is_Some (exception (isolate_ js'))
  | Some m =>
      exception (isolate_ js') = exception (isolate_ js) ∧
      modules_ js' !! path = Some m ∧
      (is_main = true →
       notified_last (delegate_ js) js' ∨
       ∃ p, Promise_State p js' = kPending ∧
            main_reaction p ∈ reactions (isolate_ js'))
  end.
Proof.
  unfold LoadModuleByPath.
  destruct (LoadModuleTree fuel path [path] js) as [[[m paths1] js1]| |] eqn:Hload;
    try discriminate.
  apply LoadModuleTree_post in Hload as (_ & Hsteps & Hload).
  pose proof (rtc_load_step_frame _ _ _ Hsteps)
    as (_ & Hq1 & Hd1 & _ & Hdyn1 & _).
  pose proof (rtc_load_step_subseteq _ _ _ Hsteps) as [_ _].
  res_simpl. destruct m as [m|].
  2:{ intros [= <- <-]. split; [apply pending_wf_ext; assumption|].
      split; [|assumption]. exists []. rewrite app_nil_r. assumption. }
  destruct Hload as [Hm1 He1].
  destruct (v8_InstantiateModule W _ _ m) as [h|e h|]; try discriminate.
  2:{ intros [= <- <-]. split; [apply pending_wf_ext; assumption|].
      split; [|simpl; eauto]. exists []. simpl. rewrite app_nil_r. assumption. }
  destruct (v8_Evaluate W _ m) as [[calls completion] h'].
  destruct (run_host_calls calls _) as [js2| |] eqn:Hcalls; try discriminate.
  apply run_host_calls_frame in Hcalls
    as ((Hb2 & Hms2 & _ & _ & _ & _ & _ & Hr2 & He2 & l2 & Hd2) & _ & Hp2).
  simpl in Hms2, He2, Hd2, Hr2.
  assert (Hpw : pending_wf js → pending_wf js2).
  { intros H. apply Hp2. revert H. apply pending_wf_ext; assumption. }
  res_simpl. destruct completion as [e|state].
  { intros [= <- <-]. split; [assumption|].
    split; [|simpl; eauto]. exists l2. simpl. congruence. }
  destruct (Promise_New_frame W state js2)
    as (Hp & (_ & Hms3 & _ & _ & _ & _ & _ & Hr3 & He3 & _) & Hd3 & _ & Hq3 & Hdyn3 & _ & Hst).
  destruct (Promise_New state js2) as [promise js3]. simpl in *. subst promise.
  rewrite Hst.
  assert (Hpw3 : pending_wf js → pending_wf js3).
  { intros H. apply Hpw in H. revert H. apply pending_wf_ext; assumption. }
  destruct state as [|v|v].
  - destruct is_main; intros [= <- <-]; (split; [exact Hpw3|]);
      (split; [exists l2; simpl; congruence|]);
      (split; [simpl; congruence|]);
      (split; [simpl; rewrite Hms3, Hms2; exact Hm1|]).
    + intros _. right. exists (next_promise (isolate_ js2)).
      split.
      * unfold Promise_State in *. exact Hst.
      * simpl. apply elem_of_app. right. apply list_elem_of_singleton. reflexivity.
    + discriminate.
  - destruct is_main; intros [= <- <-]; (split; [exact Hpw3|]).
    + split; [exists (l2 ++ [OnMainModuleLoaded])%list; simpl;
              rewrite Hd3, Hd2, Hd1, <- app_assoc; reflexivity|].
      split; [simpl; congruence|].
      split; [simpl; rewrite Hms3, Hms2; exact Hm1|].
      intros _. left. exists l2. simpl. rewrite Hd3, Hd2, Hd1, <- app_assoc.
      reflexivity.
    + split; [exists l2; congruence|].
      split; [congruence|]. split; [rewrite Hms3, Hms2; exact Hm1|discriminate].
  - intros [= <- <-]. split; [exact Hpw3|].
    split; [exists l2; simpl; congruence|]. simpl. eauto.
Qed.

Lemma pending_wf_new base_path h : pending_wf (Js_new W base_path h).
Proof.
  split; simpl; [constructor|].
  intros p. rewrite lookup_empty. split.
  - intros H%elem_of_nil. contradiction.
  - intros [x Hx]. discriminate.
Qed.

Lemma LoadModuleTree_requests_app rec dir before after :
  ∀ paths js paths1 js1,
    LoadModuleTree_requests rec dir before paths js = Ok (true, paths1, js1) →
    LoadModuleTree_requests rec dir (before ++ after) paths js
      = LoadModuleTree_requests rec dir after paths1 js1.
Proof.
  induction before as [|spec before IH]; intros paths js paths1 js1.
  - intros [= <- <-]. reflexivity.
  - simpl. destruct (IsValidImport spec); simpl; [|discriminate].
    destruct (modules_ js !! _) as [m|]; [apply IH|].
    destruct (rec _ _ js) as [[[sub paths2] js2]| |]; simpl; try discriminate.
    destruct (bool_decide (sub = None)); [discriminate|apply IH].
Qed.

Lemma run_next_task_pending_wf fuel js js' :
  pending_wf js → run_next_task fuel js = Ok js' → pending_wf js'.
Proof.
  intros Hwf. unfold run_next_task.
  destruct (task_queue_ js) as [|[path_str] queue] eqn:Hq.
  { intros [= <-]. exact Hwf. }
  destruct Hwf as [Hnd Hiff]. rewrite Hq in Hnd, Hiff.
  simpl in Hnd, Hiff. apply NoDup_cons in Hnd as [Hnotin Hnd].
  unfold ImportDynamic_task. simpl.
  destruct (dynamic_imports_ js !! path_str) as [resolver|] eqn:Hdyn; [|discriminate].
  destruct (LoadModuleByPath _ _ _ _) as [[module js1]| |] eqn:Hload; try discriminate.
  apply LoadModuleByPath_post in Hload as (Hwf1 & _ & Hr).
  assert (Hpw1 : pending_wf js1).
  { apply Hwf1. split; simpl; [assumption|].
    intros p. rewrite lookup_delete. case_decide as Hp.
    - subst p. split; [contradiction|]. intros [x Hx]. discriminate.
    - rewrite <- Hiff, elem_of_cons. split; [auto|]. intros [?|?]; [congruence|assumption]. }
  res_simpl. destruct module as [module|].
  - unfold ASSERT. simpl. intros [= <-].
    destruct (Promise_Settle_frame W resolver
                (kFulfilled (VModuleNamespace (ScriptId module))) js1)
      as (_ & _ & Hq' & Hd' & _).
    revert Hpw1. apply pending_wf_ext; assumption.
  - destruct (exception (isolate_ js1)) as [caught|]; [|discriminate].
    unfold ASSERT. simpl. intros [= <-].
    destruct (Promise_Settle_frame W resolver (kRejected caught) (TryCatch_Reset js1))
      as (_ & _ & Hq' & Hd' & _).
    revert Hpw1. apply pending_wf_ext; assumption.
Qed.

Lemma ImportDynamic_task_settles fuel path js p js' :
  dynamic_imports_ js !! path = Some p →
  ImportDynamic_task fuel path js = Ok js' →
  Promise_State p js' ≠ kPending.
Proof.
  intros Hdyn. unfold ImportDynamic_task. simpl. rewrite Hdyn.
  destruct (LoadModuleByPath _ _ _ _) as [[module js1]| |]; try discriminate.
  res_simpl. destruct module as [module|].
  - unfold ASSERT. simpl. intros [= <-].
    destruct (Promise_Settle_frame W p
                (kFulfilled (VModuleNamespace (ScriptId module))) js1)
      as (_ & _ & _ & _ & _ & -> & _).
    destruct (Promise_State p js1); discriminate.
  - destruct (exception (isolate_ js1)) as [caught|]; [|discriminate].
    unfold ASSERT. simpl. intros [= <-].
    destruct (Promise_Settle_frame W p (kRejected caught) (TryCatch_Reset js1))
      as (_ & _ & _ & _ & _ & -> & _).
    destruct (Promise_State p (TryCatch_Reset js1)); discriminate.
Qed.

(** C3.  Requests for a path that is pending share one entry, one task and
    one promise.  (a) A valid request whose resolved path has a pending entry
    returns the promise of that entry and changes neither the table of
    pending imports nor the task queue.  (b) Two valid requests in a row that
    resolve to the same path, none pending before, return the same promise;
    together they add one entry and post one task.  (c) In every session
    where each posted task has its pending entry and conversely, once each,
    this still holds after any request and after any turn of the task
    queue.  (d) The deferred task of a path settles the promise stored for
    that path, which is the one every requester holds. *)
Theorem ImportDynamic_deduplicates :
  (∀ ref spec js dir it,
     IsValidImport spec = true →
     referrer_dir js ref = Some dir →
     dynamic_imports_ js !! resolve_in W dir spec = Some it →
     ∃ js',
       ImportDynamic ref spec js = Ok (Some it, js') ∧
       dynamic_imports_ js' = dynamic_imports_ js ∧
       task_queue_ js' = task_queue_ js) ∧
  (∀ ref1 spec1 ref2 spec2 js dir1 dir2 path,
     IsValidImport spec1 = true → IsValidImport spec2 = true →
     referrer_dir js ref1 = Some dir1 → referrer_dir js ref2 = Some dir2 →
     resolve_in W dir1 spec1 = path → resolve_in W dir2 spec2 = path →
     dynamic_imports_ js !! path = None →
     ∃ p js1 js2,
       ImportDynamic ref1 spec1 js = Ok (Some p, js1) ∧
       ImportDynamic ref2 spec2 js1 = Ok (Some p, js2) ∧
       task_queue_ js2 = (task_queue_ js ++ [TaskImportDynamic path])%list ∧
       dynamic_imports_ js2 = <[path := p]> (dynamic_imports_ js) ∧
       Promise_State p js2 = kPending) ∧
  (∀ js,
     pending_wf js →
     (∀ ref spec r js', ImportDynamic ref spec js = Ok (r, js') → pending_wf js') ∧
     (∀ fuel js', run_next_task fuel js = Ok js' → pending_wf js')) ∧
  (∀ fuel path js p js',
     dynamic_imports_ js !! path = Some p →
     ImportDynamic_task fuel path js = Ok js' →
     Promise_State p js' ≠ kPending).
Proof.
  split; [|split; [|split]].
  - intros ref spec js dir it Hvalid Hdir Hdyn.
    rewrite ImportDynamic_cases, Hvalid, Hdir. cbv zeta. rewrite Hdyn.
    eexists. repeat split; reflexivity.
  - intros ref1 spec1 ref2 spec2 js dir1 dir2 path Hv1 Hv2 Hd1 Hd2 Hr1 Hr2 Hdyn.
    eexists _, _, _. split; [|split; [|split; [|split]]].
    + rewrite ImportDynamic_cases, Hv1, Hd1. cbv zeta. rewrite Hr1, Hdyn.
      reflexivity.
    + rewrite ImportDynamic_cases, Hv2.
      change (referrer_dir (set_task_queue ?q (set_dynamic_imports ?d
                (Promise_New kPending js).2)) ref2)
        with (referrer_dir js ref2).
      rewrite Hd2. cbv zeta. rewrite Hr2. simpl.
      rewrite lookup_insert_eq. reflexivity.
    + reflexivity.
    + reflexivity.
    + unfold Promise_State. simpl.
      rewrite lookup_insert_ne by lia. rewrite lookup_insert_eq. reflexivity.
  - intros js Hwf. split.
    + intros ref spec r js'. apply ImportDynamic_pending_wf. assumption.
    + intros fuel js'. apply run_next_task_pending_wf. assumption.
  - apply ImportDynamic_task_settles.
Qed.

(** C4.  A valid dynamic import request for a path with no pending entry
    does no loading itself.  It returns a new promise that is still pending,
    stores it as the pending entry of the path and posts one task for the
    path at the end of the queue; the registry, the modules the engine
    compiled, the script identifiers, the JavaScript heap, the file reads,
    the calls on the delegate and the pending exception are exactly as
    before, whether or not the path is registered.  The load happens in the
    posted task: on a queue that was empty, the next turn is
    [ImportDynamic(path_str)] for that path, whose assertion on the pending
    entry holds. *)
Theorem ImportDynamic_defers ref spec js dir :
  IsValidImport spec = true →
  referrer_dir js ref = Some dir →
  dynamic_imports_ js !! resolve_in W dir spec = None →
  let path_str := resolve_in W dir spec in
  let p := next_promise (isolate_ js) in
  ∃ js',
    ImportDynamic ref spec js = Ok (Some p, js') ∧
    Promise_State p js' = kPending ∧
    dynamic_imports_ js' = <[path_str := p]> (dynamic_imports_ js) ∧
    task_queue_ js' = (task_queue_ js ++ [TaskImportDynamic path_str])%list ∧
    modules_ js' = modules_ js ∧
    module_path_by_id_ js' = module_path_by_id_ js ∧
    compiled (isolate_ js') = compiled (isolate_ js) ∧
    next_script_id (isolate_ js') = next_script_id (isolate_ js) ∧
    heap (isolate_ js') = heap (isolate_ js) ∧
    files_read js' = files_read js ∧
    delegate_ js' = delegate_ js ∧
    exception (isolate_ js') = exception (isolate_ js) ∧
    (∀ fuel,
       task_queue_ js = [] →
       run_next_task fuel js'
         = ImportDynamic_task fuel path_str (set_task_queue [] js') ∧
       dynamic_imports_ (set_task_queue [] js') !! path_str = Some p).
Proof.
  intros Hvalid Hdir Hdyn path_str p.
  eexists. split.
  { rewrite ImportDynamic_cases, Hvalid, Hdir. cbv zeta. rewrite Hdyn. reflexivity. }
  split.
  { unfold Promise_State. simpl. rewrite lookup_insert_eq. reflexivity. }
  do 10 (split; [reflexivity|]).
  intros fuel Hempty. split.
  - unfold run_next_task. simpl. rewrite Hempty. reflexivity.
  - simpl. apply lookup_insert_eq.
Qed.

(** C6.  An import specifier that does not begin with [./] or [../] is
    rejected with the message
    [Invalid module name: '<name>'. Valid imports must begin with ./ or ../],
    the name being the specifier as written, and without a file read for
    it.  Static import: when the loop over the requests of a module has
    completed the requests before the specifier, it stops at the specifier,
    throws an [Error] with that message and reads no file; a loop that
    stops makes the load of its module fail, and a load that fails stops the
    loop of the importing module, so the failure reaches the root.  Dynamic
    import: the request returns, at once, a promise already rejected with
    the message; it reads no file, posts no task and stores no pending
    entry. *)
Theorem invalid_import_rejected spec :
  IsValidImport spec = false →
  let message :=
    "Invalid module name: '" +:+ spec +:+
    "'. Valid imports must begin with ./ or ../" in
  (∀ rec dir before after paths js paths1 js1,
     LoadModuleTree_requests rec dir before paths js = Ok (true, paths1, js1) →
     ∃ js',
       LoadModuleTree_requests rec dir (before ++ spec :: after) paths js
         = Ok (false, paths1, js') ∧
       exception (isolate_ js') = Some (v8_Error message) ∧
       files_read js' = files_read js1 ∧
       modules_ js' = modules_ js1) ∧
  (∀ fuel path paths js source requests paths1 js1,
     registry_wf js → modules_ js !! path = None →
     module_source W path = Some source →
     v8_CompileModule W source path = inl requests →
     LoadModuleTree_requests (LoadModuleTree fuel) (remove_filename W path)
       requests paths (loaded_state path requests js) = Ok (false, paths1, js1) →
     LoadModuleTree (S fuel) path paths js = Ok (None, paths1, js1)) ∧
  (∀ rec dir dep after paths js paths1 js1,
     IsValidImport dep = true →
     modules_ js !! resolve_in W dir dep = None →
     rec (resolve_in W dir dep) (paths ++ [resolve_in W dir dep])%list js
       = Ok (None, paths1, js1) →
     LoadModuleTree_requests rec dir (dep :: after) paths js
       = Ok (false, removelast paths1, js1)) ∧
  (∀ ref js,
     let p := next_promise (isolate_ js) in
     ∃ js',
       ImportDynamic ref spec js = Ok (Some p, js') ∧
       Promise_State p js' = kRejected (VString message) ∧
       files_read js' = files_read js ∧
       task_queue_ js' = task_queue_ js ∧
       dynamic_imports_ js' = dynamic_imports_ js ∧
       modules_ js' = modules_ js).
Proof.
  intros Hinvalid message. split; [|split; [|split]].
  - intros rec dir before after paths js paths1 js1 Hbefore.
    eexists. split.
    { rewrite (LoadModuleTree_requests_app _ _ _ _ _ _ _ _ Hbefore).
      apply LoadModuleTree_requests_invalid. assumption. }
    repeat split; reflexivity.
  - intros fuel path paths js source requests paths1 js1 Hwf Hp Hsrc Hcomp Hloop.
    rewrite (LoadModuleTree_fresh W _ _ _ _ _ _ Hwf Hp Hsrc Hcomp), Hloop.
    reflexivity.
  - intros rec dir dep after paths js paths1 js1 Hvalid Hp Hrec.
    rewrite LoadModuleTree_requests_unregistered by assumption.
    rewrite Hrec. reflexivity.
  - intros ref js p. eexists. split.
    { rewrite ImportDynamic_cases, Hinvalid. reflexivity. }
    destruct (Promise_New_frame W kPending js)
      as (_ & (_ & Hms & _ & Hfr & _) & _ & _ & Hq & Hd & _ & Hst).
    destruct (Promise_Settle_frame W p (kRejected (VString message))
                (Promise_New kPending js).2)
      as ((_ & Hms' & _ & Hfr' & _) & _ & Hq' & Hd' & _ & Hst' & _).
    fold p in Hst. rewrite Hst in Hst'.
    split; [exact Hst'|].
    split; [exact (eq_trans Hfr' Hfr)|].
    split; [exact (eq_trans Hq' Hq)|].
    split; [exact (eq_trans Hd' Hd)|exact (eq_trans Hms' Hms)].
Qed.

Lemma ExecuteScript_cases source js r js' :
  ExecuteScript source js = Ok (r, js') →
  let completion := (v8_Script_Run W (heap (isolate_ js)) source).1.2 in
  (∀ caught,
     v8_Script_Compile W source = Some caught →
     r = None ∧
     suppress_next_script_result_ js' = suppress_next_script_result_ js ∧
     ∃ str trace,
       delegate_ js' = (delegate_ js ++ [OnJavascriptException str trace])%list) ∧
  (v8_Script_Compile W source = None →
   suppress_next_script_result_ js = true →
   r = None ∧ suppress_next_script_result_ js' = false) ∧
  (∀ caught,
     v8_Script_Compile W source = None →
     completion = RunThrows caught →
     r = None ∧ suppress_next_script_result_ js' = false ∧
     ∃ calls str trace,
       delegate_ js'
         = (delegate_ js ++ calls ++ [OnJavascriptException str trace])%list) ∧
  (∀ result,
     v8_Script_Compile W source = None →
     completion = RunValue result →
     suppress_next_script_result_ js' = false ∧
     (r = None ∨
      r = Some (ToString result) ∧ suppress_next_script_result_ js = false)).
Proof.
  unfold ExecuteScript. simpl.
  destruct (v8_Script_Compile W source) as [caught|] eqn:Hcompile.
  { intros [= <- <-]. split; [|split; [|split]]; try discriminate.
    intros ? _. split; [reflexivity|]. split; [reflexivity|].
    eexists _, _. reflexivity. }
  destruct (v8_Script_Run W (heap (isolate_ js)) source)
    as [[calls completion] h] eqn:Hrun.
  destruct (run_host_calls calls _) as [js1| |] eqn:Hcalls; try discriminate.
  apply run_host_calls_frame in Hcalls as ((_ & _ & _ & _ & _ & _ & _ & _ & _ & l & Hd) & Hs & _).
  simpl in Hd, Hs. res_simpl. simpl.
  destruct completion as [caught|result].
  - intros [= <- <-]. split; [|split; [|split]]; try discriminate.
    + intros _ _. split; reflexivity.
    + intros c _ _. split; [reflexivity|]. split; [reflexivity|].
      exists l. eexists _, _. simpl. rewrite Hd, <- app_assoc. reflexivity.
  - destruct (suppress_next_script_result_ js1) eqn:Hflag.
    + intros [= <- <-]. split; [|split; [|split]]; try discriminate.
      * intros _ _. split; reflexivity.
      * intros ? _ _. split; [reflexivity|]. left. reflexivity.
    + intros [= <- <-]. split; [|split; [|split]]; try discriminate.
      * intros _ Hset. apply Hs in Hset. congruence.
      * intros ? _ [= <-]. split; [exact Hflag|]. right. split; [reflexivity|].
        destruct (suppress_next_script_result_ js); [|reflexivity].
        specialize (Hs eq_refl). congruence.
Qed.

(** C10.  The suppression flag and [ExecuteScript].  When the script does not
    compile, the call reports the exception, returns no result and leaves
    the flag as it found it.  When the script compiles and the flag is set,
    the call returns no result and leaves the flag cleared, both when the
    script completes and when it throws; when it throws, the exception is
    reported to the delegate as the last call and the flag is cleared
    whatever it was.  When the script compiles and completes, the flag is
    clear afterwards and a result is returned only if the flag was clear.
    Hence a flag set before a call that fails to compile suppresses the
    result of the next call that compiles. *)
Theorem ExecuteScript_suppression source js r js' :
  ExecuteScript source js = Ok (r, js') →
  let completion := (v8_Script_Run W (heap (isolate_ js)) source).1.2 in
  (∀ caught,
     v8_Script_Compile W source = Some caught →
     r = None ∧
     suppress_next_script_result_ js' = suppress_next_script_result_ js ∧
     ∃ str trace,
       delegate_ js' = (delegate_ js ++ [OnJavascriptException str trace])%list) ∧
  (v8_Script_Compile W source = None →
   suppress_next_script_result_ js = true →
   r = None ∧ suppress_next_script_result_ js' = false) ∧
  (∀ caught,
     v8_Script_Compile W source = None →
     completion = RunThrows caught →
     r = None ∧ suppress_next_script_result_ js' = false ∧
     ∃ calls str trace,
       delegate_ js'
         = (delegate_ js ++ calls ++ [OnJavascriptException str trace])%list) ∧
  (∀ result,
     v8_Script_Compile W source = None →
     completion = RunValue result →
     suppress_next_script_result_ js' = false ∧
     (r = None ∨
      r = Some (ToString result) ∧ suppress_next_script_result_ js = false)) ∧
  (∀ caught next r2 js2,
     v8_Script_Compile W source = Some caught →
     suppress_next_script_result_ js = true →
     v8_Script_Compile W next = None →
     ExecuteScript next js' = Ok (r2, js2) →
     r2 = None ∧ suppress_next_script_result_ js2 = false).
Proof.
  intros Hrun completion.
  destruct (ExecuteScript_cases _ _ _ _ Hrun) as (H1 & H2 & H3 & H4).
  split; [exact H1|]. split; [exact H2|]. split; [exact H3|]. split; [exact H4|].
  intros caught next r2 js2 Hfail Hset Hnext Hrun2.
  destruct (H1 caught Hfail) as (_ & Hkept & _).
  destruct (ExecuteScript_cases _ _ _ _ Hrun2) as (_ & H2' & _).
  apply H2'; [assumption|congruence].
Qed.

End Activation.

(** ** A main-module load returns *)

Section Totality.

Context (W : World).

Implicit Types (js : Js W) (path dir spec ref : string) (paths : list string).

Lemma new_closed_refl js : new_closed js js.
Proof. intros p m spec H1 H2. congruence. Qed.

Lemma new_closed_trans js1 js2 js3 :
  modules_ js2 ⊆ modules_ js3 →
  new_closed js1 js2 → new_closed js2 js3 → new_closed js1 js3.
Proof.
  intros Hsub H12 H23 p m spec Hp3 Hp1 Hspec.
  destruct (modules_ js2 !! p) as [m2|] eqn:Hp2.
  - assert (m2 = m) as ->.
    { pose proof (lookup_weaken _ _ _ _ Hp2 Hsub). congruence. }
    destruct (H12 p m spec Hp2 Hp1 Hspec) as [x Hx].
    exists x. eapply lookup_weaken; eassumption.
  - exact (H23 p m spec Hp3 Hp2 Hspec).
Qed.

Lemma LoadModuleTree_requests_new_closed fuel dir :
  (∀ path paths js m paths' js',
     LoadModuleTree fuel path paths js = Ok (Some m, paths', js') →
     new_closed js js') →
  ∀ requests paths js paths' js',
    LoadModuleTree_requests (LoadModuleTree fuel) dir requests paths js
      = Ok (true, paths', js') →
    (∀ spec, spec ∈ requests →
             is_Some (modules_ js' !! resolve_in W dir spec)) ∧
    new_closed js js'.
Proof.
  intros IHfuel requests.
  induction requests as [|spec requests IH]; intros paths js paths' js' Hloop.
  - injection Hloop as <- <-. split; [|apply new_closed_refl].
    intros spec H%elem_of_nil. contradiction.
  - destruct (IsValidImport spec) eqn:Hvalid.
    2:{ rewrite LoadModuleTree_requests_invalid in Hloop by assumption.
        discriminate. }
    destruct (modules_ js !! resolve_in W dir spec) as [m|] eqn:Hreg.
    + rewrite LoadModuleTree_requests_registered in Hloop by eauto.
      pose proof (LoadModuleTree_requests_post W _ _ (LoadModuleTree_post W fuel)
                    _ _ _ _ _ _ Hloop) as (_ & Hsteps & _).
      apply IH in Hloop as [Hall Hnew]. split; [|assumption].
      intros s [->|Hs]%elem_of_cons; [|auto].
      exists m. eapply rtc_load_step_mono; eassumption.
    + rewrite LoadModuleTree_requests_unregistered in Hloop by assumption.
      destruct (LoadModuleTree fuel _ _ js) as [[[sub paths1] js1]| |] eqn:Hsub;
        try discriminate.
      revert Hloop. res_simpl. destruct sub as [m1|]; simpl; [|discriminate].
      intros Hloop.
      pose proof (LoadModuleTree_post W _ _ _ _ _ _ _ Hsub) as (_ & Hsteps1 & Hm1 & _).
      pose proof (IHfuel _ _ _ _ _ _ Hsub) as Hnew1.
      pose proof (LoadModuleTree_requests_post W _ _ (LoadModuleTree_post W fuel)
                    _ _ _ _ _ _ Hloop) as (_ & Hsteps & _).
      apply IH in Hloop as [Hall Hnew]. split.
      * intros s [->|Hs]%elem_of_cons; [|auto].
        exists m1. eapply rtc_load_step_mono; eassumption.
      * eapply new_closed_trans; [|eassumption..].
        apply rtc_load_step_subseteq, Hsteps.
Qed.

Lemma LoadModuleTree_new_closed fuel :
  ∀ path paths js m paths' js',
    LoadModuleTree fuel path paths js = Ok (Some m, paths', js') →
    new_closed js js'.
Proof.
  induction fuel as [|fuel IH]; intros path paths js m paths' js'; [discriminate|].
  simpl. destruct (modules_ js !! path) as [m0|] eqn:Hreg.
  { intros [= <- <- <-]. apply new_closed_refl. }
  destruct (LoadModuleSource path paths js) as [source js1] eqn:Hsrc.
  apply LoadModuleSource_post in Hsrc as (_ & (Hms & _) & _).
  destruct source as [source|]; [|discriminate].
  destruct (CompileModule source path paths js1) as [module js2] eqn:Hcomp.
  apply CompileModule_post in Hcomp.
  destruct module as [module|]; [|discriminate].
  destruct Hcomp as (requests & _ & -> & ->).
  unfold ASSERT. case_bool_decide as Hid; simpl; [|discriminate].
  destruct (LoadModuleTree_requests _ _ _ _ _) as [[[completed paths2] js3]| |] eqn:Hloop;
    simpl; try discriminate.
  destruct completed; [|discriminate]. intros [= <- <- <-].
  pose proof (LoadModuleTree_requests_post W _ _ (LoadModuleTree_post W fuel)
                _ _ _ _ _ _ Hloop) as (_ & Hsteps & _).
  apply (LoadModuleTree_requests_new_closed _ _ IH) in Hloop as [Hall Hnew].
  intros p m spec Hp3 Hp Hspec.
  destruct (decide (p = path)) as [->|Hne].
  - assert (m = mkModule (next_script_id (isolate_ js1)) path requests) as ->.
    { pose proof (rtc_load_step_mono W _ _ path _ Hsteps
                    ltac:(simpl; apply lookup_insert_eq)).
      congruence. }
    apply Hall. exact Hspec.
  - apply (Hnew p m spec Hp3); [|exact Hspec].
    simpl. rewrite lookup_insert_ne by congruence. rewrite Hms. exact Hp.
Qed.

Lemma LoadModuleTree_closed fuel path paths js m paths' js' :
  registry_closed js →
  LoadModuleTree fuel path paths js = Ok (Some m, paths', js') →
  registry_closed js'.
Proof.
  intros Hclosed Hload p m' spec Hp Hspec.
  pose proof (LoadModuleTree_post W _ _ _ _ _ _ _ Hload) as (_ & Hsteps & _).
  destruct (modules_ js !! p) as [m0|] eqn:Hp0.
  - assert (m0 = m') as ->.
    { pose proof (rtc_load_step_mono W _ _ _ _ Hsteps Hp0). congruence. }
    destruct (Hclosed p m' spec Hp0 Hspec) as [x Hx].
    exists x. eapply rtc_load_step_mono; eassumption.
  - eapply LoadModuleTree_new_closed; eassumption.
Qed.

Lemma registry_closed_new base_path h : registry_closed (Js_new W base_path h).
Proof. intros p m spec H. simpl in H. rewrite lookup_empty in H. discriminate. Qed.

(** In a closed, well-formed registry the resolve callback finds every
    import of a registered module. *)
Lemma ResolveModule_registered js p r spec :
  registry_wf js → registry_closed js →
  modules_ js !! p = Some r → spec ∈ GetModuleRequests r →
  ∃ r', ResolveModule js r spec = Ok r'.
Proof.
  intros Hwf Hclosed Hp Hspec. unfold ResolveModule.
  rewrite (wf_path_id _ Hwf _ _ Hp).
  destruct (Hclosed p r spec Hp Hspec) as [r' Hr']. unfold resolve_in in Hr'.
  rewrite Hr'. eauto.
Qed.

Lemma resolve_reach_registered js root r :
  (∃ p, modules_ js !! p = Some root) →
  resolve_reach (ResolveModule js) root r →
  ∃ p, modules_ js !! p = Some r.
Proof.
  intros Hroot. induction 1 as [|r spec r' _ _ _ Hres]; [assumption|].
  unfold ResolveModule in Hres.
  destruct (module_path_by_id_ js !! ScriptId r) as [it|]; [|discriminate].
  destruct (modules_ js !! _) as [module|] eqn:E; [|discriminate].
  injection Hres as <-. eauto.
Qed.

Lemma ImportDynamic_returns ref spec js :
  ref = "<console>" ∨ is_Some (modules_ js !! ref) →
  ∃ r js', ImportDynamic ref spec js = Ok (r, js').
Proof.
  intros Href. rewrite ImportDynamic_cases.
  destruct (IsValidImport spec); [|eauto].
  assert (∃ dir, referrer_dir js ref = Some dir) as [dir ->].
  { unfold referrer_dir. case_bool_decide; [eauto|].
    destruct Href as [?|Href]; [contradiction|].
    rewrite bool_decide_eq_true_2 by assumption. eauto. }
  cbv zeta. destruct (dynamic_imports_ js !! resolve_in W dir spec); eauto.
Qed.

Lemma run_host_calls_returns calls :
  ∀ js,
    (∀ referrer spec,
       HostImportDynamic referrer spec ∈ calls →
       referrer = "<console>" ∨ is_Some (modules_ js !! referrer)) →
    ∃ js', run_host_calls calls js = Ok js'.
Proof.
  induction calls as [|[referrer specifier|] calls IH]; intros js Hrefs.
  - simpl. eauto.
  - simpl.
    destruct (ImportDynamic_returns referrer specifier js) as (r & js1 & E).
    { apply (Hrefs referrer specifier). apply elem_of_cons. left. reflexivity. }
    rewrite E. res_simpl.
    apply (ImportDynamic_frame W) in E as ((_ & Hms & _) & _).
    apply IH. intros ref spec Hin. rewrite Hms. apply (Hrefs ref spec).
    apply elem_of_cons. right. exact Hin.
  - simpl. apply IH. intros ref spec Hin. simpl. apply (Hrefs ref spec).
    apply elem_of_cons. right. exact Hin.
Qed.

Lemma LoadModuleByPath_returns (U : gset string) fuel path is_main js :
  engine_contract W → import_closed W U →
  registry_wf js → registry_closed js →
  path ∈ U → (size U < fuel)%nat →
  ∃ r js', LoadModuleByPath fuel path is_main js = Ok (r, js').
Proof.
  intros [Hinst Heval] Hclosed Hwf Hrc HU Hfuel. unfold LoadModuleByPath.
  destruct (LoadModuleTree_total W U Hclosed fuel path [path] js Hwf HU)
    as (r & js1 & Hload & Hsteps).
  { eapply Nat.le_lt_trans; [|exact Hfuel].
    apply subseteq_size. intros x [Hx _]%elem_of_difference. exact Hx. }
  rewrite Hload. res_simpl. destruct r as [m|]; [|eauto].
  pose proof (LoadModuleTree_post W _ _ _ _ _ _ _ Hload) as (_ & _ & Hm & _).
  pose proof (rtc_load_step_wf W _ _ Hsteps Hwf) as Hwf1.
  pose proof (LoadModuleTree_closed _ _ _ _ _ _ _ Hrc Hload) as Hrc1.
  assert (Hreach : ∀ r, resolve_reach (ResolveModule js1) m r →
                        ∃ p, modules_ js1 !! p = Some r).
  { intros r. apply resolve_reach_registered. eauto. }
  destruct (v8_InstantiateModule W (heap (isolate_ js1)) (ResolveModule js1) m)
    as [h|e h|] eqn:Hi.
  - destruct (v8_Evaluate W _ m) as [[calls completion] h'] eqn:Hev.
    destruct (run_host_calls_returns calls (with_isolate (set_heap h')
                (with_isolate (set_heap h) js1))) as [js2 ->].
    { intros referrer spec Hin. simpl.
      destruct (Heval _ _ _ _ referrer spec Hi) as [Hc|(r & Hr & Hname)].
      - simpl in Hev. rewrite Hev. exact Hin.
      - left. exact Hc.
      - right. destruct (Hreach r Hr) as [p Hp].
        rewrite <- Hname, (wf_name _ Hwf1 _ _ Hp). eauto. }
    res_simpl. destruct completion as [e|state]; [eauto|].
    destruct (Promise_New state js2) as [promise js3].
    destruct (Promise_State promise js3); [destruct is_main|destruct is_main|];
      eauto.
  - eauto.
  - exfalso. destruct (Hinst _ _ _ Hi) as (r & spec & Hr & Hspec & Hfail).
    destruct (Hreach r Hr) as [p Hp].
    destruct (ResolveModule_registered js1 p r spec Hwf1 Hrc1 Hp Hspec) as [r' Hok].
    exact (Hfail r' Hok).
Qed.

End Totality.

(** ** The main module *)

Section MainModule.

Context (W : World).

Implicit Types (js : Js W).

Lemma LoadMainModule_unfold fuel name js :
  LoadMainModule fuel name js =
    '(module, js1) ←
      LoadModuleByPath fuel (main_module_path js name) true (TryCatch_enter js);
    match module with
    | None =>
        match exception (isolate_ js1) with
        | None => AssertFailed
        | Some caught =>
            Ok (TryCatch_Reset
                  (call_delegate OnMainModuleLoaded
                     (ReportException_message (v8_Message W caught) js1)))
        end
    | Some _ => _ ← ASSERT (negb (HasCaught js1)); Ok js1
    end.
Proof. reflexivity. Qed.

Lemma LoadMainModule_cases fuel name js :
  match LoadMainModule fuel name js with
  | Ok js' =>
      reported_then_notified (delegate_ js) js' ∨
      notified_last (delegate_ js) js' ∨
      ((∃ calls, delegate_ js' = (delegate_ js ++ calls)%list) ∧
       ∃ p, Promise_State p js' = kPending ∧
            main_reaction p ∈ reactions (isolate_ js'))
  | AssertFailed =>
      LoadModuleByPath fuel (main_module_path js name) true (TryCatch_enter js)
        = AssertFailed
  | OutOfFuel =>
      LoadModuleByPath fuel (main_module_path js name) true (TryCatch_enter js)
        = OutOfFuel
  end.
Proof.
  rewrite LoadMainModule_unfold.
  destruct (LoadModuleByPath _ _ _ _) as [[module js1]| |] eqn:Hload;
    [|reflexivity..].
  apply LoadModuleByPath_post in Hload as (_ & (calls & Hcalls) & Hr).
  simpl in Hcalls. res_simpl. destruct module as [module|].
  - destruct Hr as (He & _ & Hmain). simpl in He.
    unfold ASSERT, HasCaught. rewrite He. simpl.
    destruct (Hmain eq_refl) as [Hn|Hp]; [right; left; exact Hn|].
    right. right. split; [eauto|exact Hp].
  - destruct Hr as [caught Hcaught]. rewrite Hcaught.
    left. exists calls. eexists _, _. simpl. rewrite Hcalls.
    rewrite <- !app_assoc. reflexivity.
Qed.


End MainModule.

(** ** The theorems on the concrete world *)

Lemma Demo_registry_wf : registry_wf Demo.js0.
Proof. apply registry_wf_new. Qed.

Lemma Demo_imports_a : imports_only Demo.world "/app/a.js" "./b.js" "/app/b.js".
Proof. exists "import ./b.js". repeat split; vm_compute; reflexivity. Qed.

Lemma Demo_imports_b : imports_only Demo.world "/app/b.js" "./a.js" "/app/a.js".
Proof. exists "import ./a.js". repeat split; vm_compute; reflexivity. Qed.

Lemma Demo_imports_main :
  imports_only Demo.world "/app/main.js" "./util.js" "/app/util.js".
Proof. exists "import ./util.js". repeat split; vm_compute; reflexivity. Qed.

Lemma Demo_imports_util :
  imports_only Demo.world "/app/util.js" "./helpers.js" "/app/helpers.js".
Proof. exists "import ./helpers.js". repeat split; vm_compute; reflexivity. Qed.

Lemma Demo_cycle_closed :
  import_closed Demo.world ({["/app/a.js"]} ∪ {["/app/b.js"]}).
Proof.
  intros p q Hp Hq. apply elem_of_union in Hp as [Hp|Hp];
    apply elem_of_singleton in Hp; subst p; vm_compute in Hq;
    apply list_elem_of_singleton in Hq; subst q.
  - apply elem_of_union. right. apply elem_of_singleton. reflexivity.
  - apply elem_of_union. left. apply elem_of_singleton. reflexivity.
Qed.

Lemma Demo_diamond_load :
  LoadModuleTree 5 "/app/diamond.js" ["/app/diamond.js"] Demo.js0
    = Ok (Some (mkModule 0 "/app/diamond.js" ["./left.js"; "./lib/../right.js"]),
          ["/app/diamond.js"], Scenario.js_diamond).
Proof. vm_compute. reflexivity. Qed.

Lemma LoadModuleTree_registers_once_witness :
  registry_wf Demo.js0 ∧
  registry_wf Scenario.js_diamond ∧
  ResourceName <$> compiled (isolate_ Scenario.js_diamond)
    = ["/app/diamond.js"; "/app/left.js"; "/app/ok.js"; "/app/right.js"] ∧
  LoadModuleTree 1 "/app/ok.js" ["/app/ok.js"] Scenario.js_diamond
    = Ok (Some (mkModule 2 "/app/ok.js" []), ["/app/ok.js"], Scenario.js_diamond).
Proof.
  split; [exact Demo_registry_wf|].
  destruct (LoadModuleTree_registers_once Demo.world 5 "/app/diamond.js"
              ["/app/diamond.js"] Demo.js0 Demo_registry_wf) as (_ & _ & H3).
  destruct (H3 _ _ _ Demo_diamond_load) as (Hwf & _).
  split; [exact Hwf|]. split; [vm_compute; reflexivity|].
  destruct (LoadModuleTree_registers_once Demo.world 0 "/app/ok.js"
              ["/app/ok.js"] Scenario.js_diamond Hwf) as (H1 & _).
  apply H1. vm_compute. reflexivity.
Defined.

Lemma LoadModuleTree_terminates_witness :
  (import_closed Demo.world ({["/app/a.js"]} ∪ {["/app/b.js"]}) ∧
   registry_wf Demo.js0 ∧
   imports_only Demo.world "/app/a.js" "./b.js" "/app/b.js" ∧
   imports_only Demo.world "/app/b.js" "./a.js" "/app/a.js") ∧
  (∃ r js',
     LoadModuleTree 3 "/app/a.js" ["/app/a.js"] Demo.js0
       = Ok (r, ["/app/a.js"], js') ∧ registry_wf js') ∧
  LoadModuleTree 2 "/app/a.js" ["/app/a.js"] Demo.js0
    = Ok (Some (mkModule 0 "/app/a.js" ["./b.js"]), ["/app/a.js"],
          loaded_state "/app/b.js" ["./a.js"]
            (loaded_state "/app/a.js" ["./b.js"] Demo.js0)).
Proof.
  split; [|split].
  - split; [exact Demo_cycle_closed|]. split; [exact Demo_registry_wf|].
    split; [exact Demo_imports_a|exact Demo_imports_b].
  - apply (proj1 (LoadModuleTree_terminates Demo.world)
             ({["/app/a.js"]} ∪ {["/app/b.js"]})).
    + exact Demo_cycle_closed.
    + exact Demo_registry_wf.
    + apply elem_of_union. left. apply elem_of_singleton. reflexivity.
    + vm_compute. lia.
  - apply (proj2 (LoadModuleTree_terminates Demo.world)
             "/app/a.js" "/app/b.js" "./b.js" "./a.js" 0 ["/app/a.js"] Demo.js0).
    + exact Demo_registry_wf.
    + discriminate.
    + reflexivity.
    + reflexivity.
    + exact Demo_imports_a.
    + exact Demo_imports_b.
Defined.

Lemma ImportDynamic_deduplicates_witness :
  (IsValidImport "./ok.js" = true ∧
   IsValidImport "./lib/../ok.js" = true ∧
   referrer_dir Demo.js0 "<console>" = Some "/app" ∧
   resolve_in Demo.world "/app" "./ok.js" = "/app/ok.js" ∧
   resolve_in Demo.world "/app" "./lib/../ok.js" = "/app/ok.js" ∧
   dynamic_imports_ Demo.js0 !! "/app/ok.js" = None) ∧
  ∃ p js1 js2,
    ImportDynamic "<console>" "./ok.js" Demo.js0 = Ok (Some p, js1) ∧
    ImportDynamic "<console>" "./lib/../ok.js" js1 = Ok (Some p, js2) ∧
    task_queue_ js2 = [TaskImportDynamic "/app/ok.js"] ∧
    dynamic_imports_ js2 = <["/app/ok.js" := p]> ∅ ∧
    Promise_State p js2 = kPending.
Proof.
  split; [repeat split; reflexivity|].
  apply (proj1 (proj2 (ImportDynamic_deduplicates Demo.world))
           "<console>" "./ok.js" "<console>" "./lib/../ok.js" Demo.js0
           "/app" "/app" "/app/ok.js"); reflexivity.
Defined.

Lemma ImportDynamic_defers_witness :
  (IsValidImport "./ok.js" = true ∧
   referrer_dir Demo.js0 "<console>" = Some "/app" ∧
   dynamic_imports_ Demo.js0 !! resolve_in Demo.world "/app" "./ok.js" = None) ∧
  ∃ js',
    ImportDynamic "<console>" "./ok.js" Demo.js0 = Ok (Some 0%nat, js') ∧
    Promise_State 0 js' = kPending ∧
    task_queue_ js' = [TaskImportDynamic "/app/ok.js"] ∧
    modules_ js' = ∅ ∧ files_read js' = [].
Proof.
  split; [repeat split; reflexivity|].
  destruct (ImportDynamic_defers Demo.world "<console>" "./ok.js" Demo.js0 "/app"
              eq_refl eq_refl eq_refl)
    as (js' & H1 & H2 & _ & H4 & H5 & _ & _ & _ & _ & H10 & _).
  exists js'. repeat split; assumption.
Defined.

Lemma resolve_reach_trans (resolve : Module → string → Res Module) a b c :
  resolve_reach resolve a b → resolve_reach resolve b c →
  resolve_reach resolve a c.
Proof.
  intros Hab. induction 1 as [|r spec r' _ IH Hspec Hres]; [assumption|].
  eapply reach_edge; eassumption.
Qed.

Lemma Demo_Instantiate_fails depth (resolve : Module → string → Res Module) :
  ∀ module,
    Demo.Instantiate depth resolve module ≠ Ok tt →
    ∃ r spec,
      resolve_reach resolve module r ∧
      spec ∈ GetModuleRequests r ∧
      ∀ r', resolve r spec ≠ Ok r'.
Proof.
  induction depth as [|depth IH]; intros module; [intros H; contradiction H; reflexivity|].
  simpl.
  assert (Hall : ∀ spec, spec ∈ GetModuleRequests module →
                         spec ∈ GetModuleRequests module) by auto.
  revert Hall. generalize (GetModuleRequests module) at 1 3 as l.
  induction l as [|spec l IHl]; intros Hall Hfail; [contradiction Hfail; reflexivity|].
  simpl in Hfail.
  destruct (resolve module spec) as [dep| |] eqn:Hdep.
  - simpl in Hfail.
    destruct (Demo.Instantiate depth resolve dep) as [[]| |] eqn:Hsub.
    + simpl in Hfail. apply IHl; [|exact Hfail].
      intros s Hs. apply Hall. apply elem_of_cons. right. exact Hs.
    + destruct (IH dep) as (r & s & Hr & Hs & Hno); [rewrite Hsub; discriminate|].
      exists r, s. split; [|split; assumption].
      eapply resolve_reach_trans; [|exact Hr].
      eapply reach_edge; [apply reach_root| |exact Hdep].
      apply Hall. apply elem_of_cons. left. reflexivity.
    + destruct (IH dep) as (r & s & Hr & Hs & Hno); [rewrite Hsub; discriminate|].
      exists r, s. split; [|split; assumption].
      eapply resolve_reach_trans; [|exact Hr].
      eapply reach_edge; [apply reach_root| |exact Hdep].
      apply Hall. apply elem_of_cons. left. reflexivity.
  - exists module, spec. split; [apply reach_root|]. split.
    + apply Hall. apply elem_of_cons. left. reflexivity.
    + intros r'. rewrite Hdep. discriminate.
  - exists module, spec. split; [apply reach_root|]. split.
    + apply Hall. apply elem_of_cons. left. reflexivity.
    + intros r'. rewrite Hdep. discriminate.
Qed.

Lemma Demo_engine_contract : engine_contract Demo.world.
Proof.
  split.
  - intros h resolve root. simpl. unfold Demo.InstantiateModule.
    destruct (Demo.Instantiate 4 resolve root) as [[]| |] eqn:E; try discriminate;
      intros _; apply (Demo_Instantiate_fails 4); rewrite E; discriminate.
  - intros h resolve root h1 referrer spec _. simpl. unfold Demo.Evaluate.
    repeat case_bool_decide; intros Hin; apply elem_of_nil in Hin; contradiction.
Qed.

Lemma Demo_chain_closed :
  import_closed Demo.world
    ({["/app/main.js"]} ∪ {["/app/util.js"]} ∪ {["/app/helpers.js"]}).
Proof.
  intros p q Hp Hq.
  apply elem_of_union in Hp as [Hp|Hp]; [apply elem_of_union in Hp as [Hp|Hp]|];
    apply elem_of_singleton in Hp; subst p; vm_compute in Hq.
  - apply list_elem_of_singleton in Hq. subst q.
    apply elem_of_union. left. apply elem_of_union. right.
    apply elem_of_singleton. reflexivity.
  - apply list_elem_of_singleton in Hq. subst q.
    apply elem_of_union. right. apply elem_of_singleton. reflexivity.
  - apply elem_of_nil in Hq. contradiction.
Qed.


Lemma Demo_bad_ok_load :
  LoadModuleTree_requests (LoadModuleTree 2) "/app/" ["./ok.js"] ["/app/bad.js"]
    (loaded_state "/app/bad.js" ["./ok.js"; "lodash"; "./a.js"] Demo.js0)
    = Ok (true, ["/app/bad.js"], Scenario.js_bad_ok).
Proof. vm_compute. reflexivity. Qed.

Lemma invalid_import_rejected_witness :
  IsValidImport "lodash" = false ∧
  (∃ js',
     LoadModuleTree_requests (LoadModuleTree 2) "/app/"
       ["./ok.js"; "lodash"; "./a.js"] ["/app/bad.js"]
       (loaded_state "/app/bad.js" ["./ok.js"; "lodash"; "./a.js"] Demo.js0)
       = Ok (false, ["/app/bad.js"], js') ∧
     exception (isolate_ js')
       = Some (v8_Error
                 "Invalid module name: 'lodash'. Valid imports must begin with ./ or ../") ∧
     files_read js' = ["/app/bad.js"; "/app/ok.js"]) ∧
  ∃ js',
    ImportDynamic "<console>" "lodash" Demo.js0 = Ok (Some 0%nat, js') ∧
    Promise_State 0 js'
      = kRejected
          (VString
             "Invalid module name: 'lodash'. Valid imports must begin with ./ or ../") ∧
    files_read js' = [] ∧ task_queue_ js' = [].
Proof.
  split; [reflexivity|].
  pose proof (invalid_import_rejected Demo.world "lodash" eq_refl) as H.
  cbv zeta in H. destruct H as (Hstatic & _ & _ & Hdynamic). split.
  - destruct (Hstatic (LoadModuleTree 2) "/app/" ["./ok.js"] ["./a.js"]
                _ _ _ _ Demo_bad_ok_load) as (js' & H1 & H2 & H3 & _).
    exists js'. split; [exact H1|]. split; [exact H2|].
    rewrite H3. vm_compute. reflexivity.
  - destruct (Hdynamic "<console>" Demo.js0) as (js' & H1 & H2 & H3 & H4 & _).
    exists js'. repeat split; assumption.
Defined.

Lemma LoadModuleSource_virtual_witness :
  (substr0 2 "--nope" = "--" ∧ "--nope" ≠ "--console" ∧ "--nope" ≠ "--welcome") ∧
  ∃ js',
    LoadModuleSource "--nope" ["--nope"] Demo.js0 = (None, js') ∧
    exception (isolate_ js') = Some (v8_Error "Invalid module name: --nope") ∧
    files_read js' = [].
Proof.
  split; [repeat split; discriminate|].
  destruct (proj2 (proj2 (proj2 (LoadModuleSource_virtual Demo.world ["--nope"] Demo.js0)))
              "--nope" eq_refl ltac:(discriminate) ltac:(discriminate))
    as (js' & H1 & _ & H3 & H4).
  exists js'. repeat split; assumption.
Defined.


Lemma list_ascii_of_string_app (a b : string) :
  String.list_ascii_of_string (a +:+ b)
    = (String.list_ascii_of_string a ++ String.list_ascii_of_string b)%list.
Proof. induction a as [|c a IH]; simpl; [reflexivity|]. rewrite IH. reflexivity. Qed.

Lemma chained_message_ends_in_nl error chain c :
  last (String.list_ascii_of_string chain) = Some c →
  last_of_message (Some (v8_Error (error +:+ nl +:+ chain))) = Some c.
Proof.
  intros H. unfold last_of_message, v8_Error.
  rewrite !list_ascii_of_string_app, !last_app, H. reflexivity.
Qed.

(** C8, as stated, fails for a load that stops on an invalid import
    specifier.  [/app/bad.js] imports [./ok.js], [lodash] and [./a.js]; its
    load, with [bad.js] on the load stack, fails on [lodash] and the error
    is the fixed message alone: it does not end with the chain of the
    stack and no line of it begins with loading.  The same holds for the
    name [--nope]. *)
Lemma load_failure_diagnostic_counterexample :
  (∃ js',
     LoadModuleTree 3 "/app/bad.js" ["/app/bad.js"] Demo.js0
       = Ok (None, ["/app/bad.js"], js') ∧
     exception (isolate_ js')
       = Some (v8_Error
                 "Invalid module name: 'lodash'. Valid imports must begin with ./ or ../") ∧
     (¬ ∃ error,
          exception (isolate_ js')
          = Some (v8_Error
                    (error +:+ nl +:+
                     AppendModulePath Demo.world "/app" ["/app/bad.js"]))) ∧
     String.index 0 "loading"
       "Invalid module name: 'lodash'. Valid imports must begin with ./ or ../"
       = None) ∧
  (∃ js',
     LoadModuleTree 3 "--nope" ["--nope"] Demo.js0 = Ok (None, ["--nope"], js') ∧
     exception (isolate_ js') = Some (v8_Error "Invalid module name: --nope") ∧
     (¬ ∃ error,
          exception (isolate_ js')
          = Some (v8_Error
                    (error +:+ nl +:+
                     AppendModulePath Demo.world "/app" ["--nope"]))) ∧
     String.index 0 "loading" "Invalid module name: --nope" = None).
Proof.
  split.
  - eexists. split; [vm_compute; reflexivity|]. split; [vm_compute; reflexivity|].
    split; [|vm_compute; reflexivity].
    intros [error H]. apply (f_equal last_of_message) in H.
    rewrite (chained_message_ends_in_nl _ _ (Ascii.ascii_of_nat 10)) in H
      by (vm_compute; reflexivity).
    vm_compute in H. discriminate.
  - eexists. split; [vm_compute; reflexivity|]. split; [vm_compute; reflexivity|].
    split; [|vm_compute; reflexivity].
    intros [error H]. apply (f_equal last_of_message) in H.
    rewrite (chained_message_ends_in_nl _ _ (Ascii.ascii_of_nat 10)) in H
      by (vm_compute; reflexivity).
    vm_compute in H. discriminate.
Qed.

Lemma LoadModuleTree_failure_keeps_registry_witness :
  ∃ js',
    LoadModuleTree 5 "/app/main.js" ["/app/main.js"] Demo.js0
      = Ok (None, ["/app/main.js"], js') ∧
    modules_ js' !! "/app/main.js"
      = Some (mkModule 0 "/app/main.js" ["./util.js"]) ∧
    module_path_by_id_ js' !! 0%Z = Some "/app/main.js".
Proof.
  eexists. split; [vm_compute; reflexivity|].
  eapply (proj2 (proj2 (LoadModuleTree_failure_keeps_registry Demo.world 5
                  "/app/main.js" ["/app/main.js"] Demo.js0 None ["/app/main.js"]
                  _ ltac:(vm_compute; reflexivity)))
            "import ./util.js" ["./util.js"] Demo_registry_wf);
    reflexivity.
Defined.

Lemma ExecuteScript_suppression_witness :
  ∃ js',
    ExecuteScript "syntax error" (SuppressNextScriptResult Demo.js0)
      = Ok (None, js') ∧
    suppress_next_script_result_ js' = true ∧
    ∀ r2 js2,
      ExecuteScript "1 + 1" js' = Ok (r2, js2) →
      r2 = None ∧ suppress_next_script_result_ js2 = false.
Proof.
  eexists. split; [vm_compute; reflexivity|].
  pose proof (ExecuteScript_suppression Demo.world "syntax error"
                (SuppressNextScriptResult Demo.js0) None _
                ltac:(vm_compute; reflexivity)) as H.
  cbv zeta in H. destruct H as (H1 & _ & _ & _ & H5).
  destruct (H1 _ eq_refl) as (_ & Hkept & _).
  split; [exact Hkept|].
  intros r2 js2 Hrun.
  exact (H5 _ "1 + 1" r2 js2 eq_refl eq_refl eq_refl Hrun).
Defined.

(** C5.  A main-module load that never notifies the delegate.  The load of
    [main.js] fails on the unreadable [helpers.js]; it is reported and
    notified, and it leaves [util.js] registered although the import of
    [util.js] is not: js.cc:359-363 return without undoing the registration
    of js.cc:340-341.  A later load of [util.js] as the main module finds it
    in the registry (js.cc:320-323), does not visit its imports, and is
    stopped by the second assertion of the resolve callback (js.cc:386) when
    the engine asks for [./helpers.js], with whatever fuel: the delegate is
    not called.  The same happens when the first load was the dynamic import
    of [./main.js] from the console. *)
Theorem leftover_module_stops_later_load :
  (∃ js',
     LoadMainModule 4 "main.js" Demo.js0 = Ok js' ∧
     ¬ registry_closed js' ∧
     ∀ fuel, LoadMainModule (S fuel) "util.js" js' = AssertFailed) ∧
  (∃ r js1 js2,
     ExecuteScript "import ./main.js" Demo.js0 = Ok (r, js1) ∧
     run_next_task 4 js1 = Ok js2 ∧
     delegate_ js2 = [] ∧
     ∀ fuel, LoadMainModule (S fuel) "util.js" js2 = AssertFailed).
Proof.
  split.
  - eexists. split; [vm_compute; reflexivity|]. split.
    + intros Hclosed.
      destruct (Hclosed "/app/util.js" (mkModule 1 "/app/util.js" ["./helpers.js"])
                  "./helpers.js") as [m Hm].
      * vm_compute. reflexivity.
      * apply list_elem_of_singleton. reflexivity.
      * vm_compute in Hm. discriminate.
    + intros fuel. vm_compute. reflexivity.
  - eexists _, _, _. split; [vm_compute; reflexivity|].
    split; [vm_compute; reflexivity|]. split; [vm_compute; reflexivity|].
    intros fuel. vm_compute. reflexivity.
Qed.
